(** * ThreadPool: function-backed iterators ([threadpool/make_iterator.h])

    A shallow embedding of the lazy sequence adapters of the thread pool:
    [FunctionInputIterator], [FunctionInputIteratorRange] and
    [FunctionOutputIterator].  Objects owned by a [std::shared_ptr] live in
    a store indexed by addresses, so that copies of a pointer alias one
    object; nothing is ever deallocated, which is what shared ownership
    looks like from the side of a live pointer.  C++ exceptions are
    outcomes of a computation; the store survives a throw.

    The template parameter [Function] is a function object: calling it
    may change the object itself, which every copy construction copies,
    and may read and change what the object reaches through references
    or pointers it holds (a lambda capturing by reference, a
    [std::ref], a function pointer reading globals), which copies of the
    object share.  The store has a component for each of the two.

    The pool itself ([threadpool/impl/]) is not among the sources; its
    part is modelled from the specification, as a step relation over the
    Tasks, the work queue and the worker threads. *)

From stdpp Require Import gmap list.

Set Default Proof Using "Type".

(** ** Outcomes of C++ expressions *)

(** What a [catch] clause can distinguish: [std::out_of_range] and every
    other exception type. *)
Inductive exception (E : Type) : Type :=
| out_of_range
| other (e : E).
Arguments out_of_range {E}.
Arguments other {E} e.

(** [Undefined] stands for undefined behaviour (dereferencing an empty
    [shared_ptr], reading a value that was never assigned); [OutOfFuel]
    for a recursion or loop cut off by its bound. *)
Inductive outcome (E A : Type) : Type :=
| Normal (a : A)
| Thrown (x : exception E)
| Undefined
| OutOfFuel.
Arguments Normal {E A} a.
Arguments Thrown {E A} x.
Arguments Undefined {E A}.
Arguments OutOfFuel {E A}.

(** Computations over a store [S] that may throw. *)
Definition M (S E A : Type) : Type := S → outcome E A * S.

Definition ret {S E A} (a : A) : M S E A := λ s, (Normal a, s).

Definition bind {S E A B} (m : M S E A) (k : A → M S E B) : M S E B :=
  λ s, match m s with
       | (Normal a, s') => k a s'
       | (Thrown x, s') => (Thrown x, s')
       | (Undefined, s') => (Undefined, s')
       | (OutOfFuel, s') => (OutOfFuel, s')
       end.

Definition throw {S E A} (x : exception E) : M S E A := λ s, (Thrown x, s).
Definition undefined {S E A} : M S E A := λ s, (Undefined, s).
Definition out_of_fuel {S E A} : M S E A := λ s, (OutOfFuel, s).

(** [try { body } catch (std::out_of_range) { handler }] *)
Definition try_catch_out_of_range {S E A} (body handler : M S E A) : M S E A :=
  λ s, match body s with
       | (Thrown out_of_range, s') => handler s'
       | r => r
       end.

Declare Scope cpp_scope.
Delimit Scope cpp_scope with cpp.
Notation "x <- m ;; k" := (bind m (λ x, k))
  (at level 100, m at next level, right associativity) : cpp_scope.
Notation "m ;;; k" := (bind m (λ _, k))
  (at level 100, right associativity) : cpp_scope.
Local Open Scope cpp_scope.

(** Addresses of heap objects. *)
Abbreviation loc := positive (only parsing).

(** [p->] and [*p.get()] on a shared pointer: the address it holds,
    undefined when it is empty. *)
Definition pointee {S E} (p : option loc) : M S E loc :=
  match p with
  | Some a => ret a
  | None => undefined
  end.

(** ** Input side: [FunctionInputIterator] and [FunctionInputIteratorRange] *)

Section Input.

(** [T] is [Base::value_type]; [Fn] the producer type [Function], a
    function object; [E] the exceptions other than [std::out_of_range];
    [W] the state outside the function objects that producers reach
    through references, shared by all copies of all of them.
    [call f w] is [f()] in the world [w]: it returns a value or throws,
    and leaves the function object and the world in a new state. *)
Context {T Fn E W : Type}.
Variable call : Fn → W → (T + exception E) * Fn * W.

(** [struct Values]; [value] is a [ref_value], [None] until assigned. *)
Record Values : Type := mkValues {
  last : bool;
  value_valid : bool;
  fun_ : Fn;
  value : option T
}.

Definition set_last (b : bool) (c : Values) : Values :=
  mkValues b (value_valid c) (fun_ c) (value c).
Definition set_value_valid (b : bool) (c : Values) : Values :=
  mkValues (last c) b (fun_ c) (value c).
Definition set_fun (f : Fn) (c : Values) : Values :=
  mkValues (last c) (value_valid c) f (value c).
Definition set_value (x : T) (c : Values) : Values :=
  mkValues (last c) (value_valid c) (fun_ c) (Some x).

(** [Values(const Function& fun) : fun(fun) { }] *)
Definition Values_of (f : Fn) : Values := mkValues false false f None.

(** The store: the [Values] objects and the [Function] objects held by
    shared pointers, the world of the producers, and the history of
    producer invocations, newest first: which object's [fun] was called
    and what came out.  The history is kept for specification only; no
    operation reads it. *)
Record state : Type := mkState {
  values : gmap loc Values;
  functions : gmap loc Fn;
  world : W;
  calls : list (loc * (T + exception E))
}.

Definition empty_state (w : W) : state := mkState ∅ ∅ w [].

Abbreviation Cpp := (M state E).

(** [std::shared_ptr<Values> v]; [None] is the empty pointer. *)
Record FunctionInputIterator : Type := mkIter { v : option loc }.

(** [std::shared_ptr<Function> fun] *)
Record FunctionInputIteratorRange : Type := mkRange { fun_ptr : option loc }.

(** *** Store primitives *)

(** The store with the object at [p] replaced by [c]. *)
Definition put (p : loc) (c : Values) (s : state) : state :=
  mkState (<[p := c]> (values s)) (functions s) (world s) (calls s).

(** The store with one more producer invocation in its history. *)
Definition logged (p : loc) (r : T + exception E) (s : state) : state :=
  mkState (values s) (functions s) (world s) ((p, r) :: calls s).

(** The store with the world of the producers replaced by [w]. *)
Definition with_world (w : W) (s : state) : state :=
  mkState (values s) (functions s) w (calls s).

(** [new Values(...)] and [new Function(...)]: an address not in use. *)
Definition new_Values (c : Values) : Cpp loc :=
  λ s, let p := fresh (dom (values s)) in (Normal p, put p c s).

Definition new_Function (f : Fn) : Cpp loc :=
  λ s, let p := fresh (dom (functions s)) in
       (Normal p,
        mkState (values s) (<[p := f]> (functions s)) (world s) (calls s)).

(** Reading and writing the members of the object at [p]. *)
Definition load (p : loc) : Cpp Values :=
  λ s, match values s !! p with
       | Some c => (Normal c, s)
       | None => (Undefined, s)
       end.

Definition store (p : loc) (c : Values) : Cpp unit :=
  λ s, (Normal (), put p c s).

Definition load_Function (p : loc) : Cpp Fn :=
  λ s, match functions s !! p with
       | Some f => (Normal f, s)
       | None => (Undefined, s)
       end.

Definition modify (p : loc) (g : Values → Values) : Cpp unit :=
  c <- load p ;; store p (g c).

(** Keeping the history. *)
Definition record_call (p : loc) (r : T + exception E) : Cpp unit :=
  λ s, (Normal (), logged p r s).

(** The world as the producers find it and as they leave it. *)
Definition get_world : Cpp W := λ s, (Normal (world s), s).

Definition set_world (w : W) : Cpp unit := λ s, (Normal (), with_world w s).

(** [v->fun()] *)
Definition invoke (p : loc) : Cpp T :=
  c <- load p ;;
  w <- get_world ;;
  let '(r, f', w') := call (fun_ c) w in
  store p (set_fun f' c) ;;;
  set_world w' ;;;
  record_call p r ;;;
  match r with
  | inl x => ret x
  | inr e => throw e
  end.

(** [ref_value::move()] *)
Definition move (o : option T) : Cpp T :=
  match o with
  | Some x => ret x
  | None => undefined
  end.

(** *** [FunctionInputIterator] *)

(** [FunctionInputIterator() = default] *)
Definition FunctionInputIterator_default : Cpp FunctionInputIterator :=
  ret (mkIter None).

(** [FunctionInputIterator(const Function& fun) : v(new Values(fun))] *)
Definition FunctionInputIterator_of (f : Fn) : Cpp FunctionInputIterator :=
  p <- new_Values (Values_of f) ;; ret (mkIter (Some p)).

(** [FunctionInputIterator(Function&& fun, bool last = false)]: the flag
    is not used. *)
Definition FunctionInputIterator_of_rvalue (f : Fn) (last_arg : bool)
  : Cpp FunctionInputIterator :=
  p <- new_Values (Values_of f) ;; ret (mkIter (Some p)).

(** [FunctionInputIterator(const FunctionInputIterator&) = default]: the
    shared pointer is copied, not the object it points to. *)
Definition FunctionInputIterator_copy (x : FunctionInputIterator)
  : Cpp FunctionInputIterator :=
  ret (mkIter (v x)).

(** [operator++()] and [operator++(int)] *)
Definition operator_preinc (this : FunctionInputIterator)
  : Cpp FunctionInputIterator := ret this.
Definition operator_postinc (this : FunctionInputIterator)
  : Cpp FunctionInputIterator := ret this.

(** [operator*()] *)
Definition operator_deref (this : FunctionInputIterator) : Cpp T :=
  p <- pointee (v this) ;;
  c <- load p ;;
  (if value_valid c then
     modify p (set_value_valid false)
   else if negb (last c) then
     try_catch_out_of_range
       (x <- invoke p ;; modify p (set_value x))
       (modify p (set_last true))
   else ret ()) ;;;
  c' <- load p ;;
  if last c' then throw out_of_range
  else move (value c').

(** [v != nullptr && !(v->last || v->value_valid)] *)
Definition wants_lookahead (it : FunctionInputIterator) : Cpp bool :=
  match v it with
  | None => ret false
  | Some p => c <- load p ;; ret (negb (last c || value_valid c))
  end.

(** [v == nullptr || v->last] *)
Definition null_or_last (it : FunctionInputIterator) : Cpp bool :=
  match v it with
  | None => ret true
  | Some p => c <- load p ;; ret (last c)
  end.

(** The body of [operator==(x)].  The source calls [x.operator==( *this)]
    from inside it; [fuel] bounds the depth of that recursion. *)
Fixpoint operator_eq_fuel (fuel : nat) (this x : FunctionInputIterator)
  : Cpp bool :=
  match fuel with
  | O => out_of_fuel
  | S fuel' =>
    b <- wants_lookahead this ;;
    (if b then
       p <- pointee (v this) ;;
       try_catch_out_of_range
         (y <- invoke p ;;
          modify p (set_value y) ;;;
          modify p (set_value_valid true))
         (modify p (set_last true))
     else ret ()) ;;;
    b' <- wants_lookahead x ;;
    if b' then operator_eq_fuel fuel' x this
    else
      l <- null_or_last this ;;
      r <- null_or_last x ;;
      ret (eqb l r)
  end.

(** [operator==(x)].  The recursive call swaps the two sides after the
    left one has looked ahead, so it is entered at most once: depth two
    is enough, whatever the store ([operator_eq_fuel_two] below). *)
Definition operator_eq (this x : FunctionInputIterator) : Cpp bool :=
  operator_eq_fuel 2 this x.

(** [operator!=(x)] *)
Definition operator_ne (this x : FunctionInputIterator) : Cpp bool :=
  b <- operator_eq this x ;; ret (negb b).

(** *** [FunctionInputIteratorRange] *)

(** [FunctionInputIteratorRange(const Function& fun) : fun(new Function(fun))] *)
Definition FunctionInputIteratorRange_of (f : Fn)
  : Cpp FunctionInputIteratorRange :=
  p <- new_Function f ;; ret (mkRange (Some p)).

(** [FunctionInputIteratorRange(const FunctionInputIteratorRange&) = default] *)
Definition FunctionInputIteratorRange_copy (r : FunctionInputIteratorRange)
  : Cpp FunctionInputIteratorRange :=
  ret (mkRange (fun_ptr r)).

(** [begin()]: [FunctionInputIterator<Function>( *fun.get())].  The
    function object of the range is copy-constructed into the new
    [Values] object; what it reaches through references is not copied:
    it stays in the world, where the producers of all iterators find
    it. *)
Definition begin (r : FunctionInputIteratorRange)
  : Cpp FunctionInputIterator :=
  q <- pointee (fun_ptr r) ;;
  f <- load_Function q ;;
  FunctionInputIterator_of f.

(** [end()]: [FunctionInputIterator<Function>()] *)
Definition end_ (r : FunctionInputIteratorRange)
  : Cpp FunctionInputIterator :=
  FunctionInputIterator_default.

(** [threadpool::make_function_input_range(fun)] *)
Definition make_function_input_range (f : Fn)
  : Cpp FunctionInputIteratorRange :=
  FunctionInputIteratorRange_of f.

(** *** Reading the store *)

(** The first statement of [operator==] on its own: look ahead on [this]
    unless it is empty, at the end or already holds a value. *)
Definition lookahead (this : FunctionInputIterator) : Cpp unit :=
  b <- wants_lookahead this ;;
  if b then
    p <- pointee (v this) ;;
    try_catch_out_of_range
      (y <- invoke p ;;
       modify p (set_value y) ;;;
       modify p (set_value_valid true))
      (modify p (set_last true))
  else ret ().

(** What that statement leaves in the object [c], when the producer
    finds the world [w]. *)
Definition looked_ahead (w : W) (c : Values) : Values :=
  if last c || value_valid c then c
  else match call (fun_ c) w with
       | (inl a, f', _) => set_value_valid true (set_value a (set_fun f' c))
       | (inr out_of_range, f', _) => set_last true (set_fun f' c)
       | (inr (other e), f', _) => set_fun f' c
       end.

(** [v == nullptr || v->last], read off a store. *)
Definition at_end (s : state) (x : FunctionInputIterator) : bool :=
  match v x with
  | None => true
  | Some p => match values s !! p with
              | Some c => last c
              | None => false
              end
  end.

(** The iterator is empty or points to an object of the store: no
    dangling pointers, as shared ownership guarantees. *)
Definition live (s : state) (x : FunctionInputIterator) : Prop :=
  match v x with
  | None => True
  | Some p => is_Some (values s !! p)
  end.

(** The last statement of [operator==]. *)
Definition compare_ends (this x : FunctionInputIterator) : Cpp bool :=
  l <- null_or_last this ;;
  r <- null_or_last x ;;
  ret (eqb l r).

(** The comparison as the specification words it: force one look-ahead
    on each side that is not exhausted and holds no value, then compare
    the end status, where a default-constructed iterator counts as at
    the end.  Forcing the look-ahead on [x] calls the producer of its
    object in the world of the store: a value is kept, an
    [std::out_of_range] marks the end, another exception passes
    through. *)
Definition forced (x : FunctionInputIterator) : Cpp unit :=
  λ s, match v x with
       | None => (Normal (), s)
       | Some p =>
         match values s !! p with
         | None => (Undefined, s)
         | Some c =>
           if last c || value_valid c then (Normal (), s)
           else
             let '(r, f', w') := call (fun_ c) (world s) in
             (match r with
              | inr (other e) => Thrown (other e)
              | _ => Normal ()
              end,
              mkState
                (<[p := match r with
                        | inl a => mkValues false true f' (Some a)
                        | inr out_of_range => mkValues true false f' (value c)
                        | inr (other _) => mkValues false false f' (value c)
                        end]> (values s))
                (functions s) w' ((p, r) :: calls s))
         end
       end.

Definition same_end_status (x y : FunctionInputIterator) : Cpp bool :=
  forced x ;;; forced y ;;;
  λ s, (Normal (eqb (at_end s x) (at_end s y)), s).

(** The history of one object's producer. *)
Definition calls_of (p : loc) (s : state) : list (T + exception E) :=
  (filter (λ e, e.1 = p) (calls s)).*2.

Definition is_end_signal (r : T + exception E) : bool :=
  match r with
  | inr out_of_range => true
  | _ => false
  end.

(** How often the producer of [p] has signalled the end. *)
Definition end_signals (p : loc) (s : state) : nat :=
  length (filter (λ r, is_end_signal r) (calls_of p s)).

(** What one operation does to the store is a sequence of these steps;
    [P] holds of the objects the operation works on.  The producer of an
    object that is not at the end is called and the object updated; a
    value looked ahead is taken; a new object is allocated. *)
Inductive astep (P : loc → Prop) : state → state → Prop :=
| astep_call s p c c' :
    P p → values s !! p = Some c → last c = false →
    fun_ c' = (call (fun_ c) (world s)).1.2 →
    last c' = is_end_signal (call (fun_ c) (world s)).1.1 →
    astep P s (logged p (call (fun_ c) (world s)).1.1
                 (with_world (call (fun_ c) (world s)).2 (put p c' s)))
| astep_take s p c :
    P p → values s !! p = Some c →
    astep P s (put p (set_value_valid false c) s)
| astep_new s p f :
    values s !! p = None →
    astep P s (put p (Values_of f) s)
| astep_new_Function s q f :
    functions s !! q = None →
    astep P s
      (mkState (values s) (<[q := f]> (functions s)) (world s) (calls s)).

(** The history agrees with the objects: a producer has signalled the
    end at most once, and [last] is set in exactly the objects whose
    producer has. *)
Definition history_ok (s : state) : Prop :=
  ∀ p, end_signals p s ≤ 1 ∧
       (0 < end_signals p s → ∃ c, values s !! p = Some c ∧ last c = true) ∧
       (∀ c, values s !! p = Some c → last c = true → 0 < end_signals p s).

(** [produces f w xs f' w']: called again and again from state [f] in
    the world [w], with nothing else changing the world in between, the
    producer returns the values [xs] in this order, then throws
    [std::out_of_range], and is left in state [f'], the world in
    [w']. *)
Fixpoint produces (f : Fn) (w : W) (xs : list T) (f' : Fn) (w' : W) : Prop :=
  match xs with
  | [] => call f w = (inr out_of_range, f', w')
  | a :: xs' => ∃ f1 w1, call f w = (inl a, f1, w1) ∧ produces f1 w1 xs' f' w'
  end.

(** A producer with value semantics: all its state is in the function
    object, so that what a call returns does not depend on the world,
    and the call leaves the world as it is. *)
Definition value_semantics : Prop :=
  ∀ f w w', call f w' = ((call f w).1, w').

(** *** Client programs *)

(** The range-based [for] statement over iterators:
    [for (; first != last; ++first) { auto&& x = *first; ... }],
    returning the values it saw.  [fuel] bounds the number of rounds: a
    producer that never throws keeps the loop running forever. *)
Fixpoint for_each (fuel : nat) (first last_ : FunctionInputIterator)
  : Cpp (list T) :=
  match fuel with
  | O => out_of_fuel
  | S fuel' =>
    b <- operator_ne first last_ ;;
    if b then
      x <- operator_deref first ;;
      first' <- operator_preinc first ;;
      xs <- for_each fuel' first' last_ ;;
      ret (x :: xs)
    else ret []
  end.

(** [for (auto&& x : range) ...] *)
Definition range_for (fuel : nat) (r : FunctionInputIteratorRange)
  : Cpp (list T) :=
  b <- begin r ;;
  e <- end_ r ;;
  for_each fuel b e.

(** One call of a member function or constructor of this header, as a
    client can issue it. *)
Inductive operation : Type :=
| OpDefault
| OpOf (f : Fn)
| OpOfRvalue (f : Fn) (last_arg : bool)
| OpCopy (x : FunctionInputIterator)
| OpPreinc (x : FunctionInputIterator)
| OpPostinc (x : FunctionInputIterator)
| OpDeref (x : FunctionInputIterator)
| OpEq (x y : FunctionInputIterator)
| OpNe (x y : FunctionInputIterator)
| OpEqFuel (fuel : nat) (x y : FunctionInputIterator)
| OpRangeOf (f : Fn)
| OpRangeCopy (r : FunctionInputIteratorRange)
| OpBegin (r : FunctionInputIteratorRange)
| OpEnd (r : FunctionInputIteratorRange).

(** The store after an operation, whatever its outcome: a client may
    catch what is thrown and go on. *)
Definition exec (o : operation) (s : state) : state :=
  match o with
  | OpDefault => snd (FunctionInputIterator_default s)
  | OpOf f => snd (FunctionInputIterator_of f s)
  | OpOfRvalue f b => snd (FunctionInputIterator_of_rvalue f b s)
  | OpCopy x => snd (FunctionInputIterator_copy x s)
  | OpPreinc x => snd (operator_preinc x s)
  | OpPostinc x => snd (operator_postinc x s)
  | OpDeref x => snd (operator_deref x s)
  | OpEq x y => snd (operator_eq x y s)
  | OpNe x y => snd (operator_ne x y s)
  | OpEqFuel n x y => snd (operator_eq_fuel n x y s)
  | OpRangeOf f => snd (FunctionInputIteratorRange_of f s)
  | OpRangeCopy r => snd (FunctionInputIteratorRange_copy r s)
  | OpBegin r => snd (begin r s)
  | OpEnd r => snd (end_ r s)
  end.

Definition exec_all (os : list operation) (s : state) : state :=
  foldl (λ s' o, exec o s') s os.

(** The [Values] objects an operation is applied to. *)
Definition touches (o : operation) (p : loc) : Prop :=
  match o with
  | OpDeref x => v x = Some p
  | OpEq x y | OpNe x y | OpEqFuel _ x y => v x = Some p ∨ v y = Some p
  | _ => False
  end.

(** *** What a client gets out of one object *)

(** The values the producer of [p] has returned, oldest first. *)
Definition produced (p : loc) (s : state) : list T :=
  reverse (omap (λ r, match r with inl a => Some a | inr _ => None end)
                (calls_of p s)).

(** The value looked ahead for [p] and not yet handed out. *)
Definition held (p : loc) (s : state) : list T :=
  match values s !! p with
  | Some c => if value_valid c then option_list (value c) else []
  | None => []
  end.

(** What an operation hands out of the object [p]: the value a
    dereference of an iterator on [p] returns. *)
Definition handed_out (p : loc) (o : operation) (s : state) : list T :=
  match o with
  | OpDeref x =>
    if decide (v x = Some p) then
      match (operator_deref x s).1 with
      | Normal a => [a]
      | _ => []
      end
    else []
  | _ => []
  end.

(** What a sequence of operations hands out of [p], in order. *)
Fixpoint delivered (p : loc) (os : list operation) (s : state) : list T :=
  match os with
  | [] => []
  | o :: os' => handed_out p o s ++ delivered p os' (exec o s)
  end.

(** The flags agree with the cache: an object that holds a looked-ahead
    value is not at the end and its [value] has been assigned; and the
    history mentions allocated objects only. *)
Definition cache_ok (s : state) : Prop :=
  ∀ p, match values s !! p with
       | Some c => value_valid c = true → last c = false ∧ is_Some (value c)
       | None => calls_of p s = []
       end.

(** The values produced for [p] are the values [d] already handed out,
    followed by the one that is held, in a store whose flags agree with
    the cache. *)
Definition conserved (p : loc) (d : list T) (s : state) : Prop :=
  cache_ok s ∧ produced p s = d ++ held p s.

(** [std::distance(first, last)] as it works on input iterators:
    [while (first != last) { ++first; ++n; }]. *)
Fixpoint distance (fuel : nat) (first last_ : FunctionInputIterator)
  : Cpp nat :=
  match fuel with
  | O => out_of_fuel
  | S fuel' =>
    b <- operator_ne first last_ ;;
    if b then
      first' <- operator_preinc first ;;
      n <- distance fuel' first' last_ ;;
      ret (S n)
    else ret 0
  end.

(** Reading [n] values without asking for the end:
    [for (i = 0; i < n; ++i) { xs.push_back( *first); ++first; }]. *)
Fixpoint read_n (n : nat) (first : FunctionInputIterator) : Cpp (list T) :=
  match n with
  | O => ret []
  | S n' =>
    x <- operator_deref first ;;
    first' <- operator_preinc first ;;
    xs <- read_n n' first' ;;
    ret (x :: xs)
  end.

End Input.

(** ** Output side: [FunctionOutputIterator] *)

Section Output.

(** [A] is the type of what is assigned; [G] the consumer type
    [Function]; [E] the exceptions other than [std::out_of_range].
    [apply g a] is [g(a)]: it returns or throws, and leaves the function
    object in a new state. *)
Context {A G E : Type}.
Variable apply : G → A → option (exception E) * G.

(** The store: the [Function] objects held by shared pointers, and the
    history of consumer invocations, newest first, kept for
    specification only. *)
Record ostate : Type := mkOState {
  consumers : gmap loc G;
  applications : list (loc * A)
}.

Abbreviation Out := (M ostate E).

(** [std::shared_ptr<Function> fun] *)
Record FunctionOutputIterator : Type := mkOut { out_fun : option loc }.

(** [FunctionOutputIterator() { }] *)
Definition FunctionOutputIterator_default : Out FunctionOutputIterator :=
  ret (mkOut None).

(** [FunctionOutputIterator(const Function& fun) : fun(new Function(fun))] *)
Definition FunctionOutputIterator_of (g : G) : Out FunctionOutputIterator :=
  λ s, let q := fresh (dom (consumers s)) in
       (Normal (mkOut (Some q)),
        mkOState (<[q := g]> (consumers s)) (applications s)).

(** [FunctionOutputIterator(const FunctionOutputIterator&) = default] *)
Definition FunctionOutputIterator_copy (x : FunctionOutputIterator)
  : Out FunctionOutputIterator :=
  ret (mkOut (out_fun x)).

(** [operator++()], [operator++(int)] and [operator*()] all
    [return *this]. *)
Definition out_preinc (this : FunctionOutputIterator)
  : Out FunctionOutputIterator := ret this.
Definition out_postinc (this : FunctionOutputIterator)
  : Out FunctionOutputIterator := ret this.
Definition out_deref (this : FunctionOutputIterator)
  : Out FunctionOutputIterator := ret this.

(** The store after [g(arg)] on the function object at [q], which
    becomes [g']. *)
Definition applied (q : loc) (arg : A) (g' : G) (s : ostate) : ostate :=
  mkOState (<[q := g']> (consumers s)) ((q, arg) :: applications s).

(** [operator=(Arg&& arg)]: [( *fun.get())(std::forward<Arg>(arg))] *)
Definition out_assign (this : FunctionOutputIterator) (arg : A) : Out unit :=
  q <- pointee (out_fun this) ;;
  λ s, match consumers s !! q with
       | None => (Undefined, s)
       | Some g =>
         let '(r, g') := apply g arg in
         (match r with
          | None => Normal ()
          | Some e => Thrown e
          end, applied q arg g' s)
       end.

(** [threadpool::make_function_output_iterator(fun)] *)
Definition make_function_output_iterator (g : G) : Out FunctionOutputIterator :=
  FunctionOutputIterator_of g.

(** [for (auto&& x : xs) *out++ = x;], the loop of [std::copy] into an
    output iterator; returns the iterator. *)
Fixpoint copy_to (xs : list A) (out : FunctionOutputIterator)
  : Out FunctionOutputIterator :=
  match xs with
  | [] => ret out
  | x :: xs' =>
    o <- out_postinc out ;;
    o' <- out_deref o ;;
    out_assign o' x ;;;
    copy_to xs' out
  end.

(** [accepts g xs g']: applied to the values [xs] one after the other,
    the consumer returns each time, and is left in state [g']. *)
Fixpoint accepts (g : G) (xs : list A) (g' : G) : Prop :=
  match xs with
  | [] => g' = g
  | x :: xs' => ∃ g1, apply g x = (None, g1) ∧ accepts g1 xs' g'
  end.

End Output.

(** A sample consumer: [[total](int x) mutable { total += x; }], the
    function object being the running total. *)
Definition add_up (g : nat) (x : nat) : option (exception Empty_set) * nat :=
  (None, g + x).

Definition sink_store : @ostate nat nat := mkOState {[ 1%positive := 0 ]} [].
Definition out1 : FunctionOutputIterator := mkOut (Some 1%positive).

(** ** The pool and bulk submission *)

Section Pool.

(** [A] is the argument type of the pool's callable, [B] its result
    type, [Err] what it can raise; [run a] is the callable applied to
    [a]: it returns a value or raises an error. *)
Context {A B Err : Type}.
Variable run : A → B + Err.

(** Modelled from the spec: the pool implementation
    ([threadpool/impl/threadpool_*.h]) is not among the sources.  The
    states of a Task (data model): Pending, Running, Completed(value),
    Failed(error). *)
Inductive task_state : Type :=
| Pending
| Running
| Completed (b : B)
| Failed (e : Err).

(** Modelled from the spec: a Task, "a callable plus its eventual result
    or failure": the argument captured at submission and the completion
    slot. *)
Record task : Type := mkTask { argument : A; status : task_state }.

(** Modelled from the spec: the pool of the statically-specialized
    engine.  [tasks] are the Tasks by handle, a handle being the index of
    submission; [queue] is the Work Queue, "an ordered (FIFO) sequence of
    Tasks awaiting execution"; [workers] the Worker Pool, one entry per
    thread, holding the Task the thread is executing. *)
Record pool : Type := mkPool {
  tasks : list task;
  queue : list nat;
  workers : list (option nat)
}.

(** Modelled from the spec: pool construction with [worker_count] threads,
    "threads started eagerly". *)
Definition new_pool (worker_count : nat) : pool :=
  mkPool [] [] (replicate worker_count None).

(** Modelled from the spec: [submit(args...) -> Handle]: the Task is
    created Pending, put at the back of the queue, and its handle
    returned. *)
Definition submit (a : A) (p : pool) : nat * pool :=
  (length (tasks p),
   mkPool (tasks p ++ [mkTask a Pending]) (queue p ++ [length (tasks p)])
          (workers p)).

(** Modelled from the spec: the execution contract.  "If invocation
    completes normally, the return value is stored in the completion slot
    and the handle transitions to Completed.  If invocation raises an
    error, the error is captured [...] and stored; the handle transitions
    to Failed". *)
Definition executed (a : A) : task_state :=
  match run a with
  | inl b => Completed b
  | inr e => Failed e
  end.

(** Modelled from the spec: storing a state in the completion slot of
    the Task with handle [h]. *)
Definition set_status (h : nat) (st : task_state) (ts : list task) : list task :=
  alter (λ t, mkTask (argument t) st) h ts.

(** Modelled from the spec: one turn of a worker thread's loop, "wait for
    non-empty queue [...], dequeue one Task, execute it, store
    result/failure, repeat".  An idle thread takes the Task at the front
    of the queue; a thread holding a Task executes it, stores the outcome
    and is idle again, whether the callable returned or raised. *)
Inductive worker_step : pool → pool → Prop :=
| worker_dequeue p w h q' :
    workers p !! w = Some None → queue p = h :: q' →
    worker_step p (mkPool (set_status h Running (tasks p)) q'
                          (<[w := Some h]> (workers p)))
| worker_execute p w h t :
    workers p !! w = Some (Some h) → tasks p !! h = Some t →
    worker_step p (mkPool (set_status h (executed (argument t)) (tasks p))
                          (queue p) (<[w := None]> (workers p))).

(** Modelled from the spec: what can happen to a pool: a submitter thread
    submits a Task, or a worker thread takes a turn. *)
Inductive pool_step : pool → pool → Prop :=
| pool_submit p a : pool_step p (submit a p).2
| pool_work p p' : worker_step p p' → pool_step p p'.

(** Modelled from the spec: [Handle.get()], which "blocks the calling
    thread until Completed or Failed, then returns the value [...] or
    re-raises the error": [None] while the caller is blocked, [inl] the
    value returned, [inr] the error re-raised. *)
Definition get (p : pool) (h : nat) : option (B + Err) :=
  match tasks p !! h with
  | Some t => match status t with
              | Completed b => Some (inl b)
              | Failed e => Some (inr e)
              | _ => None
              end
  | None => None
  end.

(** Modelled from the spec: the state of one bulk submission: the input
    values not yet submitted, the handles submitted and not yet yielded,
    oldest first, and what the output sequence has yielded so far. *)
Record bulk : Type := mkBulk {
  inputs : list A;
  in_flight : list nat;
  yielded : list (B + Err)
}.

(** Modelled from the spec: "for each value it enqueues one Task", in
    the order of the values. *)
Fixpoint submit_all (xs : list A) (p : pool) : list nat * pool :=
  match xs with
  | [] => ([], p)
  | a :: xs' =>
    let r := submit_all xs' (submit a p).2 in
    ((submit a p).1 :: r.1, r.2)
  end.

(** Modelled from the spec: [submit_range(inputSequence)]: "for each
    value it enqueues one Task"; "the engine enqueues eagerly up to an
    implementation-chosen watermark and submits the remainder lazily as
    the output sequence is drained". *)
Definition submit_range (watermark : nat) (xs : list A) (p : pool)
  : pool * bulk :=
  let '(hs, p') := submit_all (take watermark xs) p in
  (p', mkBulk (drop watermark xs) hs []).

(** Modelled from the spec: iterating the output sequence "blocks on and
    yields the next completed result in submission order": the oldest
    handle in flight is waited for, its outcome yielded, and the next
    input value, if any, submitted. *)
Definition drained (r : B + Err) (hs : list nat) (p : pool) (b : bulk)
  : pool * bulk :=
  match inputs b with
  | [] => (p, mkBulk [] hs (yielded b ++ [r]))
  | a :: rest =>
    ((submit a p).2, mkBulk rest (hs ++ [(submit a p).1]) (yielded b ++ [r]))
  end.

(** Modelled from the spec: what can happen while the output sequence of
    a bulk submission is iterated: a worker thread takes a turn, or the
    iterating thread gets the next result. *)
Inductive bulk_step : pool * bulk → pool * bulk → Prop :=
| bulk_work p p' b : worker_step p p' → bulk_step (p, b) (p', b)
| bulk_yield p b h hs r :
    in_flight b = h :: hs → get p h = Some r →
    bulk_step (p, b) (drained r hs p b).

(** A pool is consistent when the handles in the queue and with the
    workers are handles of Tasks, every Pending Task is in the queue,
    every Running Task is with a worker, and every finished Task holds
    the outcome of the callable on its argument. *)
Record pool_ok (p : pool) : Prop := mkPoolOk {
  ok_queue : ∀ h, h ∈ queue p → h < length (tasks p);
  ok_workers : ∀ w h, workers p !! w = Some (Some h) → h < length (tasks p);
  ok_pending : ∀ h t,
    tasks p !! h = Some t → status t = Pending → h ∈ queue p;
  ok_running : ∀ h t,
    tasks p !! h = Some t → status t = Running →
    ∃ w, workers p !! w = Some (Some h);
  ok_done : ∀ h t,
    tasks p !! h = Some t →
    status t = Pending ∨ status t = Running ∨ status t = executed (argument t)
}.

(** A bulk submission of [xs] is consistent when what was yielded, the
    arguments of the Tasks in flight and the inputs still to submit make
    up [xs], in this order. *)
Definition bulk_ok (xs : list A) (σ : pool * bulk) : Prop :=
  ∃ args,
    Forall2 (λ h a, ∃ t, tasks σ.1 !! h = Some t ∧ argument t = a)
            (in_flight σ.2) args ∧
    run <$> xs = yielded σ.2 ++ (run <$> args) ++ (run <$> inputs σ.2).

(** What holds throughout a bulk submission: the pool and the bulk
    submission are consistent, and as long as inputs are left some Task
    is in flight. *)
Definition bulk_inv (xs : list A) (σ : pool * bulk) : Prop :=
  pool_ok σ.1 ∧ bulk_ok xs σ ∧ (in_flight σ.2 = [] → inputs σ.2 = []).

(** The number of steps a bulk submission still has to make. *)
Definition work_left (σ : pool * bulk) : nat :=
  3 * length (inputs σ.2) + 2 * length (queue σ.1)
  + length (filter is_Some (workers σ.1)) + length (in_flight σ.2).

End Pool.

(** A sample callable: [[](int x) { if (x == 0) throw ...; return 100 / x; }]. *)
Definition reciprocal (x : nat) : nat + unit :=
  if decide (x = 0) then inr () else inl (100 / x).

(** Another one, which never raises: [[](int x) { return x * x; }]. *)
Definition square (x : nat) : nat + unit := inl (x * x).

(** ** A sample producer *)

(** [[i, n]() mutable { if (i >= n) throw std::out_of_range(""); return i++; }],
    the function object being the pair of [i] and [n]; it reaches
    nothing outside itself. *)
Definition upto (f : nat * nat) (w : unit)
  : (nat + exception Empty_set) * (nat * nat) * unit :=
  if f.1 <? f.2 then (inl f.1, (S f.1, f.2), w) else (inr out_of_range, f, w).

(** A store with one untouched object at address 1 counting from 0 to
    [n], and the iterators used in the examples. *)
Definition store_upto (n : nat) : @state nat (nat * nat) Empty_set unit :=
  mkState {[ 1%positive := Values_of (0, n) ]} ∅ () [].
Definition it1 : FunctionInputIterator := mkIter (Some 1%positive).
Definition it_end : FunctionInputIterator := mkIter None.

(** A store with the function object of one range at address 1, and the
    range. *)
Definition range_store (n : nat) : @state nat (nat * nat) Empty_set unit :=
  mkState ∅ {[ 1%positive := (0, n) ]} () [].
Definition range1 : FunctionInputIteratorRange := mkRange (Some 1%positive).

(** A producer that fails once with another exception before it starts
    counting: [[n]() mutable { if (n++ == 0) throw Failure(); return n - 1; }]. *)
Definition flaky (n : nat) (w : unit) : (nat + exception unit) * nat * unit :=
  if decide (n = 0) then (inr (other ()), 1, w) else (inl n, S n, w).

Definition store_flaky : @state nat nat unit unit :=
  mkState {[ 1%positive := Values_of 0 ]} ∅ () [].

(** An endless producer: [[n]() mutable { return n++; }]. *)
Definition count_up (n : nat) (w : unit)
  : (nat + exception Empty_set) * nat * unit :=
  (inl n, S n, w).

Definition store_count_up : @state nat nat Empty_set unit :=
  mkState {[ 1%positive := Values_of 0 ]} ∅ () [].

(** A producer that counts in a variable it captured by reference:
    [[&i, n]() { if (i >= n) throw std::out_of_range(""); return i++; }].
    The function object holds [n]; [i] is in the world. *)
Definition upto_by_ref (n : nat) (i : nat)
  : (nat + exception Empty_set) * nat * nat :=
  if i <? n then (inl i, n, S i) else (inr out_of_range, n, i).

(** A store with the function object of one such range at address 1,
    counting up to 2, the variable being 0. *)
Definition range_store_by_ref : @state nat nat Empty_set nat :=
  mkState ∅ {[ 1%positive := 2 ]} 0 [].

(** Two producers of one type over one variable:
    [struct Counter { int* i; bool strict; int operator()() {
       if (strict && *i >= 1) throw std::out_of_range(""); return ( *i)++; } }].
    The function object holds [strict]; [*i] is in the world. *)
Definition counter (strict : bool) (i : nat)
  : (nat + exception Empty_set) * bool * nat :=
  if strict && (1 <=? i) then (inr out_of_range, strict, i)
  else (inl i, strict, S i).

(** A store with an untouched strict counter at address 1 and an
    untouched lenient one at address 2, the variable being 0; [it2] is
    an iterator on the second. *)
Definition store_counters : @state nat bool Empty_set nat :=
  mkState {[ 1%positive := Values_of true; 2%positive := Values_of false ]}
          ∅ 0 [].
Definition it2 : FunctionInputIterator := mkIter (Some 2%positive).

(** A consumer that rejects zero:
    [[total](int x) mutable { if (x == 0) throw Failure(); total += x; }]. *)
Definition picky (g : nat) (x : nat) : option (exception unit) * nat :=
  if decide (x = 0) then (Some (other ()), g) else (None, g + x).

Definition picky_store : @ostate nat nat := mkOState {[ 1%positive := 0 ]} [].

(** * Facts about the input side *)

Section InputFacts.

Context {T Fn E W : Type}.
Variable call : Fn → W → (T + exception E) * Fn * W.

Abbreviation State := (@state T Fn E W).
Abbreviation It := mkIter.

Implicit Types (s t : State) (c : @Values T Fn) (p q : loc).
Implicit Types (x y : FunctionInputIterator).

Lemma put_put p c c' s : put p c' (put p c s) = put p c' s.
Proof. unfold put; simpl. by rewrite insert_insert_eq. Qed.

Lemma load_Some p c s : values s !! p = Some c → load p s = (Normal c, s).
Proof. intros H. unfold load. by rewrite H. Qed.

Lemma load_None p s : values s !! p = None → load (E:=E) p s = (Undefined, s).
Proof. intros H. unfold load. by rewrite H. Qed.

Lemma load_put p c s : load p (put p c s) = (Normal c, put p c s).
Proof. apply load_Some. simpl. apply lookup_insert_eq. Qed.

Lemma load_logged p q r s : load p (logged q r s) =
  match load p s with (o, _) => (o, logged q r s) end.
Proof. unfold load; simpl. by destruct (values s !! p). Qed.

Lemma load_with_world p w s : load p (with_world w s) =
  match load p s with (o, _) => (o, with_world w s) end.
Proof. unfold load; simpl. by destruct (values s !! p). Qed.

(** [v->fun()] on the object [c] at [p]. *)
Lemma invoke_spec p c s :
  values s !! p = Some c →
  invoke call p s =
    (match (call (fun_ c) (world s)).1.1 with
     | inl a => Normal a
     | inr e => Thrown e
     end,
     logged p (call (fun_ c) (world s)).1.1
       (with_world (call (fun_ c) (world s)).2
          (put p (set_fun (call (fun_ c) (world s)).1.2 c) s))).
Proof.
  intros H. unfold invoke, bind. rewrite (load_Some _ _ _ H). unfold get_world.
  destruct (call (fun_ c) (world s)) as [[[a|e] f'] w']; reflexivity.
Qed.

Lemma put_logged p c q r s : put p c (logged q r s) = logged q r (put p c s).
Proof. reflexivity. Qed.

Lemma put_with_world p c w s :
  put p c (with_world w s) = with_world w (put p c s).
Proof. reflexivity. Qed.

(** Run the loads that hit an object just written; compare stores. *)
Ltac cpp_run :=
  repeat first [ rewrite load_put | rewrite load_logged
               | rewrite load_with_world
               | progress unfold store | progress simpl ].
Ltac state_eq :=
  rewrite ?put_logged, ?put_with_world, ?put_put; try reflexivity.

Lemma bind_assoc {S A B C} (m : M S E A) (k : A → M S E B) (k' : B → M S E C) (s : S) :
  bind (bind m k) k' s = bind m (λ a, bind (k a) k') s.
Proof. unfold bind. by destruct (m s) as [[]]. Qed.

Lemma bind_run {S A B} (m : M S E A) (k : A → M S E B) (s : S) o (s' : S) :
  m s = (o, s') →
  bind m k s = match o with
               | Normal a => k a s'
               | Thrown x => (Thrown x, s')
               | Undefined => (Undefined, s')
               | OutOfFuel => (OutOfFuel, s')
               end.
Proof. intros H. unfold bind. by rewrite H. Qed.

Lemma modify_spec p g c s :
  values s !! p = Some c → modify p g s = (Normal (), put (E:=E) p (g c) s).
Proof. intros H. unfold modify, bind. by rewrite (load_Some _ _ _ H). Qed.

(** *** [operator*] case by case *)

(** A value looked ahead is handed out and the object stops holding it. *)
Lemma deref_cached p c s :
  values s !! p = Some c → value_valid c = true →
  operator_deref call (It (Some p)) s =
    (if last c then Thrown out_of_range
     else match value c with Some a => Normal a | None => Undefined end,
     put p (set_value_valid false c) s).
Proof.
  intros H Hv. unfold operator_deref, bind; simpl.
  rewrite (load_Some _ _ _ H), Hv, (modify_spec _ _ _ _ H), load_put; simpl.
  destruct (last c); [done|]. by destruct (value c).
Qed.

(** At the end nothing is called and nothing changes. *)
Lemma deref_ended p c s :
  values s !! p = Some c → last c = true → value_valid c = false →
  operator_deref call (It (Some p)) s = (Thrown out_of_range, s).
Proof.
  intros H Hl Hv. unfold operator_deref, bind; simpl.
  rewrite (load_Some _ _ _ H), Hv, Hl; simpl.
  by rewrite (load_Some _ _ _ H), Hl.
Qed.

(** Without a value looked ahead the producer is called once. *)
Lemma deref_fresh p c s :
  values s !! p = Some c → value_valid c = false → last c = false →
  operator_deref call (It (Some p)) s =
    match call (fun_ c) (world s) with
    | (inl a, f', w') =>
        (Normal a,
         logged p (inl a)
           (with_world w' (put p (set_value a (set_fun f' c)) s)))
    | (inr out_of_range, f', w') =>
        (Thrown out_of_range,
         logged p (inr out_of_range)
           (with_world w' (put p (set_last true (set_fun f' c)) s)))
    | (inr (other e), f', w') =>
        (Thrown (other e),
         logged p (inr (other e)) (with_world w' (put p (set_fun f' c) s)))
    end.
Proof.
  intros H Hv Hl.
  unfold operator_deref, try_catch_out_of_range, modify, bind; simpl.
  rewrite (load_Some _ _ _ H), Hv, Hl; simpl.
  rewrite (invoke_spec _ _ _ H).
  destruct (call (fun_ c) (world s)) as [[[a|[|e]] f'] w']; cpp_run; rewrite ?Hl; by state_eq.
Qed.

(** *** [operator==] as two look-aheads and a comparison *)

Lemma wants_lookahead_cell p c s :
  values s !! p = Some c →
  wants_lookahead (It (Some p)) s =
    (Normal (negb (last c || value_valid c)), s) :> outcome E bool * State.
Proof. intros H. unfold wants_lookahead, bind; simpl. by rewrite (load_Some _ _ _ H). Qed.

Lemma lookahead_null {A} (k : M State E A) s :
  (lookahead call (It None) ;;; k) s = k s.
Proof. reflexivity. Qed.

Lemma lookahead_dangling p s :
  values s !! p = None → lookahead call (It (Some p)) s = (Undefined, s).
Proof. intros H. unfold lookahead, wants_lookahead, bind; simpl. by rewrite (load_None _ _ H). Qed.

Lemma lookahead_settled p c s :
  values s !! p = Some c → last c || value_valid c = true →
  lookahead call (It (Some p)) s = (Normal (), s).
Proof.
  intros H Hs. unfold lookahead, bind.
  by rewrite (wants_lookahead_cell _ _ _ H), Hs.
Qed.

Lemma lookahead_call p c s :
  values s !! p = Some c → last c || value_valid c = false →
  lookahead call (It (Some p)) s =
    (match (call (fun_ c) (world s)).1.1 with
     | inr (other e) => Thrown (other e)
     | _ => Normal ()
     end,
     logged p (call (fun_ c) (world s)).1.1
       (with_world (call (fun_ c) (world s)).2
          (put p (looked_ahead call (world s) c) s))).
Proof.
  intros H Hs. unfold lookahead, bind at 1.
  rewrite (wants_lookahead_cell _ _ _ H), Hs; simpl.
  unfold looked_ahead, try_catch_out_of_range, modify, bind; simpl.
  rewrite Hs, (invoke_spec _ _ _ H).
  destruct (call (fun_ c) (world s)) as [[[a|[|e]] f'] w']; cpp_run; by state_eq.
Qed.

Lemma looked_ahead_settled w c :
  (∀ e, (call (fun_ c) w).1.1 ≠ inr (other e)) →
  last (looked_ahead call w c) || value_valid (looked_ahead call w c) = true.
Proof.
  intros Hne. unfold looked_ahead.
  destruct (last c || value_valid c) eqn:Hs; [done|].
  destruct (call (fun_ c) w) as [[[a|[|e]] f'] w']; simpl in *.
  - apply orb_true_r.
  - done.
  - by destruct (Hne e).
Qed.

(** After a look-ahead that returned, the iterator is empty or its object
    is at the end or holds a value. *)
Lemma lookahead_post x s s1 :
  lookahead call x s = (Normal (), s1) →
  match v x with
  | None => True
  | Some p => ∃ c1, values s1 !! p = Some c1 ∧ last c1 || value_valid c1 = true
  end.
Proof.
  destruct x as [[p|]]; simpl; [|done].
  destruct (values s !! p) as [c|] eqn:H.
  - destruct (last c || value_valid c) eqn:Hs.
    + rewrite (lookahead_settled _ _ _ H Hs). intros [= <-]. eauto.
    + rewrite (lookahead_call _ _ _ H Hs). intros [= Ho <-].
      exists (looked_ahead call (world s) c). split; [apply lookup_insert_eq|].
      apply looked_ahead_settled. intros e He. by rewrite He in Ho.
  - by rewrite (lookahead_dangling _ _ H).
Qed.

Lemma null_or_last_spec x s :
  null_or_last x s =
    (match v x with
     | Some p => if values s !! p is Some _ then Normal (at_end s x) else Undefined
     | None => Normal true
     end, s) :> outcome E bool * State.
Proof.
  destruct x as [[p|]]; [|done]. unfold null_or_last, at_end, bind, load; simpl.
  by destruct (values s !! p).
Qed.

Lemma compare_ends_comm x y s :
  compare_ends (E:=E) x y s = compare_ends y x s :> outcome E bool * State.
Proof.
  destruct x as [[p|]], y as [[q|]];
    unfold compare_ends, null_or_last, bind, load; simpl; try done.
  destruct (values s !! p) as [c|] eqn:Hp, (values s !! q) as [d|] eqn:Hq;
    repeat (progress (rewrite ?Hp, ?Hq; simpl)); try done.
  unfold ret. by destruct (last c), (last d).
Qed.

Lemma operator_eq_fuel_unfold n x y s :
  operator_eq_fuel call (S n) x y s =
    (lookahead call x ;;;
     b' <- wants_lookahead y ;;
     if b' then operator_eq_fuel call n y x else compare_ends x y) s.
Proof. unfold lookahead. by rewrite bind_assoc. Qed.

(** The recursion of [operator==] unrolled: look ahead on the left, then
    on the right, then compare.  Two levels of the recursion are enough,
    whatever the store. *)
Lemma operator_eq_fuel_two n x y s :
  operator_eq_fuel call (S (S n)) x y s =
    (lookahead call x ;;; lookahead call y ;;; compare_ends x y) s.
Proof.
  rewrite operator_eq_fuel_unfold.
  destruct (lookahead call x s) as [o1 s1] eqn:H1.
  rewrite !(bind_run _ _ _ _ _ H1).
  destruct o1 as [[]| | |]; try done.
  apply lookahead_post in H1.
  destruct y as [[q|]]; [|done].
  destruct (values s1 !! q) as [c2|] eqn:H2.
  2:{ rewrite (bind_run _ _ _ _ _ (lookahead_dangling _ _ H2)).
      unfold wants_lookahead; simpl.
      by rewrite bind_assoc, (bind_run _ _ _ _ _ (load_None _ _ H2)). }
  rewrite (bind_run _ _ _ _ _ (wants_lookahead_cell _ _ _ H2)).
  destruct (last c2 || value_valid c2) eqn:Hs2; cbn [negb].
  { by rewrite (bind_run _ _ _ _ _ (lookahead_settled _ _ _ H2 Hs2)). }
  rewrite operator_eq_fuel_unfold.
  rewrite !(bind_run _ _ _ _ _ (lookahead_call _ _ _ H2 Hs2)).
  destruct ((call (fun_ c2) (world s1)).1.1) as [a|[|e]] eqn:Hc; try done.
  all: destruct x as [[p|]]; simpl in H1;
    [destruct H1 as (c1 & H1 & Hs1);
     assert (p ≠ q) by (intros ->; congruence);
     erewrite bind_run
       by (apply wants_lookahead_cell; simpl; rewrite lookup_insert_ne; eauto);
     rewrite Hs1; simpl; apply compare_ends_comm
    | apply compare_ends_comm ].
Qed.

(** *** Every operation is a sequence of steps on the objects it names *)

Abbreviation steps P := (rtc (astep call P)).

Lemma steps_mono (P Q : loc → Prop) s s' :
  (∀ l, P l → Q l) → steps P s s' → steps Q s s'.
Proof.
  intros HPQ. induction 1 as [|s1 s2 s3 H12 _ IH]; [done|].
  eapply rtc_l; [|exact IH]. destruct H12; econstructor; eauto.
Qed.

Lemma wants_lookahead_state x s : (wants_lookahead (E:=E) x s).2 = s.
Proof.
  destruct x as [[p|]]; [|done]. unfold wants_lookahead, bind, load; simpl.
  by destruct (values s !! p).
Qed.

Lemma null_or_last_state x s : (null_or_last (E:=E) x s).2 = s.
Proof. by rewrite null_or_last_spec. Qed.

Lemma compare_ends_state x y s : (compare_ends (E:=E) x y s).2 = s.
Proof.
  unfold compare_ends, bind.
  destruct (null_or_last x s) as [o s1] eqn:H1.
  assert (s1 = s) as -> by (by rewrite <- (null_or_last_state x s), H1).
  destruct o; try done.
  destruct (null_or_last y s) as [o s1] eqn:H2.
  assert (s1 = s) as -> by (by rewrite <- (null_or_last_state y s), H2).
  by destruct o.
Qed.

Lemma deref_steps x s :
  steps (λ l, v x = Some l) s (operator_deref call x s).2.
Proof.
  destruct x as [[p|]]; [|done]; simpl.
  destruct (values s !! p) as [c|] eqn:H.
  2:{ unfold operator_deref, bind; simpl. by rewrite (load_None _ _ H). }
  destruct (value_valid c) eqn:Hv.
  { rewrite (deref_cached _ _ _ H Hv). apply rtc_once. by econstructor. }
  destruct (last c) eqn:Hl.
  { by rewrite (deref_ended _ _ _ H Hl Hv). }
  rewrite (deref_fresh _ _ _ H Hv Hl).
  destruct (call (fun_ c) (world s)) as [[r f'] w'] eqn:Hc.
  pose proof (astep_call call (λ l, Some p = Some l) s p c) as Hstep.
  rewrite Hc in Hstep; simpl in Hstep.
  destruct r as [a|[|e]]; simpl; apply rtc_once, Hstep; done.
Qed.

Lemma lookahead_steps x s :
  steps (λ l, v x = Some l) s (lookahead call x s).2.
Proof.
  destruct x as [[p|]]; [|done]; simpl.
  destruct (values s !! p) as [c|] eqn:H.
  2:{ by rewrite (lookahead_dangling _ _ H). }
  destruct (last c || value_valid c) eqn:Hs.
  { by rewrite (lookahead_settled _ _ _ H Hs). }
  rewrite (lookahead_call _ _ _ H Hs); simpl.
  apply orb_false_elim in Hs as [Hl Hv].
  apply rtc_once. econstructor; eauto.
  - unfold looked_ahead. rewrite Hl, Hv; simpl.
    by destruct (call (fun_ c) (world s)) as [[[a|[|e]] f'] w'].
  - unfold looked_ahead. rewrite Hl, Hv; simpl.
    by destruct (call (fun_ c) (world s)) as [[[a|[|e]] f'] w'].
Qed.

Lemma operator_eq_fuel_steps n x y s :
  steps (λ l, v x = Some l ∨ v y = Some l) s (operator_eq_fuel call n x y s).2.
Proof.
  destruct n as [|[|n]]; [done| |].
  - rewrite operator_eq_fuel_unfold.
    pose proof (lookahead_steps x s) as Hx.
    destruct (lookahead call x s) as [o1 s1] eqn:H1; simpl in Hx.
    rewrite (bind_run _ _ _ _ _ H1).
    apply (steps_mono _ (λ l, v x = Some l ∨ v y = Some l)) in Hx; [|by left].
    destruct o1; try done.
    pose proof (wants_lookahead_state y s1) as Hw.
    destruct (wants_lookahead y s1) as [o2 s2] eqn:H2; simpl in Hw; subst s2.
    rewrite (bind_run _ _ _ _ _ H2).
    destruct o2 as [[]| | |]; try done.
    by rewrite compare_ends_state.
  - rewrite operator_eq_fuel_two.
    pose proof (lookahead_steps x s) as Hx.
    destruct (lookahead call x s) as [o1 s1] eqn:H1; simpl in Hx.
    rewrite (bind_run _ _ _ _ _ H1).
    apply (steps_mono _ (λ l, v x = Some l ∨ v y = Some l)) in Hx; [|by left].
    destruct o1; try done.
    pose proof (lookahead_steps y s1) as Hy.
    destruct (lookahead call y s1) as [o2 s2] eqn:H2; simpl in Hy.
    rewrite (bind_run _ _ _ _ _ H2).
    apply (steps_mono _ (λ l, v x = Some l ∨ v y = Some l)) in Hy; [|by right].
    assert (steps (λ l, v x = Some l ∨ v y = Some l) s s2) by (by etrans).
    destruct o2; try done.
    by rewrite compare_ends_state.
Qed.

Lemma new_Values_fresh c s :
  values s !! fresh (dom (values s)) = None.
Proof. apply not_elem_of_dom, is_fresh. Qed.

Lemma exec_steps o s : steps (touches o) s (exec call o s).
Proof.
  destruct o; simpl; try done.
  - apply rtc_once, astep_new, (new_Values_fresh (Values_of f)).
  - apply rtc_once, astep_new, (new_Values_fresh (Values_of f)).
  - apply deref_steps.
  - apply operator_eq_fuel_steps.
  - unfold operator_ne, bind.
    pose proof (operator_eq_fuel_steps 2 x y s) as H.
    unfold operator_eq. destruct (operator_eq_fuel call 2 x y s) as [[]?]; done.
  - apply operator_eq_fuel_steps.
  - apply rtc_once, astep_new_Function, not_elem_of_dom, is_fresh.
  - unfold begin, bind. destruct r as [[q|]]; simpl; [|done].
    unfold load_Function. destruct (functions s !! q); simpl; [|done].
    apply rtc_once, astep_new, (new_Values_fresh (Values_of f)).
Qed.

Lemma exec_all_steps os s :
  steps (λ l, ∃ o, o ∈ os ∧ touches o l) s (exec_all call os s).
Proof.
  revert s. induction os as [|o os IH]; intros s; [done|]. simpl.
  etrans.
  - eapply steps_mono; [|apply exec_steps]. intros l Hl. exists o. split; [left|done].
  - eapply steps_mono; [|apply IH]. intros l (o' & Ho' & Hl). exists o'. split; [by right|done].
Qed.

(** *** What the steps preserve *)

Lemma calls_of_put p q c s : calls_of p (put q c s) = calls_of p s.
Proof. reflexivity. Qed.

Lemma calls_of_logged p q r s :
  calls_of p (logged q r s) =
    if decide (q = p) then r :: calls_of p s else calls_of p s.
Proof.
  unfold calls_of, logged; simpl. rewrite filter_cons; simpl.
  by destruct (decide (q = p)).
Qed.

Lemma calls_of_with_world p w s : calls_of p (with_world w s) = calls_of p s.
Proof. reflexivity. Qed.

Lemma end_signals_put p q c s : end_signals p (put q c s) = end_signals p s.
Proof. reflexivity. Qed.

Lemma end_signals_with_world p w s :
  end_signals p (with_world w s) = end_signals p s.
Proof. reflexivity. Qed.

Lemma end_signals_logged p q r s :
  end_signals p (logged q r s) =
    if decide (q = p) then (if is_end_signal r then 1 else 0) + end_signals p s
    else end_signals p s.
Proof.
  unfold end_signals. rewrite calls_of_logged.
  destruct (decide (q = p)); [|done].
  rewrite filter_cons. by destruct (is_end_signal r).
Qed.

Lemma history_ok_empty (w : W) : history_ok (@empty_state T Fn E W w).
Proof.
  intros p. unfold end_signals, calls_of; simpl.
  split; [lia|]. split; [lia|]. intros c Hc. by rewrite lookup_empty in Hc.
Qed.

Lemma history_ok_astep P s s' :
  astep call P s s' → history_ok s → history_ok s'.
Proof.
  intros Hstep Hok l. destruct (Hok l) as (Hle & Hsig & Hlast).
  destruct Hstep as [s p c c' _ Hp Hl Hf Hl'|s p c _ Hp|s p f Hp|s q f Hq].
  - rewrite end_signals_logged, end_signals_with_world, end_signals_put; simpl.
    destruct (decide (p = l)) as [<-|Hne].
    + assert (end_signals p s = 0) as ->.
      { destruct (end_signals p s); [done|].
        destruct Hsig as (c0 & Hc0 & Hl0); [lia|]. congruence. }
      rewrite lookup_insert_eq, <- Hl'. destruct (last c') eqn:Hlc; simpl.
      * split; [lia|]. split; [eauto|]. intros; lia.
      * split; [lia|]. split; [lia|]. intros ? [= <-] ?; congruence.
    + rewrite lookup_insert_ne by done. done.
  - rewrite end_signals_put; simpl.
    destruct (decide (p = l)) as [<-|Hne].
    + rewrite lookup_insert_eq. split; [done|]. split.
      * intros Hpos. destruct (Hsig Hpos) as (c0 & Hc0 & Hl0).
        eexists; split; [done|]. simpl. congruence.
      * intros ? [= <-] ?. eauto.
    + rewrite lookup_insert_ne by done. done.
  - rewrite end_signals_put; simpl.
    destruct (decide (p = l)) as [<-|Hne].
    + rewrite lookup_insert_eq. split; [done|]. split.
      * intros Hpos. destruct (Hsig Hpos) as (c0 & Hc0 & Hl0). congruence.
      * by intros ? [= <-] ?.
    + rewrite lookup_insert_ne by done. done.
  - done.
Qed.

Lemma history_ok_steps P s s' :
  steps P s s' → history_ok s → history_ok s'.
Proof. induction 1; eauto using history_ok_astep. Qed.

(** An object at the end stays there, and its producer is not called. *)
Lemma ended_astep P s s' p c :
  astep call P s s' → values s !! p = Some c → last c = true →
  ∃ c', values s' !! p = Some c' ∧ last c' = true ∧ fun_ c' = fun_ c
        ∧ calls_of p s' = calls_of p s.
Proof.
  intros Hstep Hc Hl.
  destruct Hstep as [s p0 c0 c' _ Hp Hl0 Hf Hl'|s p0 c0 _ Hp|s p0 f Hp|s q f Hq]; simpl.
  - assert (p0 ≠ p) by (intros ->; congruence).
    rewrite calls_of_logged, calls_of_with_world, calls_of_put, decide_False
      by done.
    rewrite lookup_insert_ne by done. eauto.
  - rewrite calls_of_put. destruct (decide (p0 = p)) as [->|Hne].
    + rewrite lookup_insert_eq. eexists; split; [done|].
      assert (c0 = c) as -> by congruence. done.
    + rewrite lookup_insert_ne by done. eauto.
  - assert (p0 ≠ p) by (intros ->; congruence).
    rewrite calls_of_put, lookup_insert_ne by done. eauto.
  - eauto.
Qed.

Lemma ended_steps P s s' p c :
  steps P s s' → values s !! p = Some c → last c = true →
  ∃ c', values s' !! p = Some c' ∧ last c' = true ∧ fun_ c' = fun_ c
        ∧ calls_of p s' = calls_of p s.
Proof.
  intros Hsteps. revert c. induction Hsteps as [|s1 s2 s3 H12 _ IH]; intros c Hc Hl; [eauto|].
  destruct (ended_astep _ _ _ _ _ H12 Hc Hl) as (c2 & Hc2 & Hl2 & Hf2 & Hcalls2).
  destruct (IH _ Hc2 Hl2) as (c3 & ? & ? & ? & ?).
  exists c3. repeat split; try done; congruence.
Qed.

(** Objects an operation does not name are left alone, and so are the
    function objects of the ranges. *)
Lemma frame_astep (P : loc → Prop) s s' p c :
  astep call P s s' → ¬ P p → values s !! p = Some c →
  values s' !! p = Some c ∧ calls_of p s' = calls_of p s.
Proof.
  intros Hstep HP Hc.
  destruct Hstep as [s p0 c0 c' HP0 Hp Hl0 Hf Hl'|s p0 c0 HP0 Hp|s p0 f Hp|s q f Hq]; simpl.
  - assert (p0 ≠ p) by (intros ->; done).
    rewrite calls_of_logged, calls_of_with_world, calls_of_put, decide_False
      by done.
    by rewrite lookup_insert_ne.
  - assert (p0 ≠ p) by (intros ->; done).
    by rewrite calls_of_put, lookup_insert_ne.
  - assert (p0 ≠ p) by (intros ->; congruence).
    by rewrite calls_of_put, lookup_insert_ne.
  - done.
Qed.

Lemma frame_steps (P : loc → Prop) s s' p c :
  steps P s s' → ¬ P p → values s !! p = Some c →
  values s' !! p = Some c ∧ calls_of p s' = calls_of p s.
Proof.
  intros Hsteps HP. induction Hsteps as [|s1 s2 s3 H12 _ IH]; intros Hc; [done|].
  destruct (frame_astep _ _ _ _ _ H12 HP Hc) as [Hc2 Hcalls2].
  destruct (IH Hc2) as [? ?]. split; [done|congruence].
Qed.

Lemma functions_astep P s s' q f :
  astep call P s s' → functions s !! q = Some f → functions s' !! q = Some f.
Proof.
  intros Hstep Hq. destruct Hstep as [| | |s q0 f0 Hq0]; simpl; try done.
  assert (q0 ≠ q) by (intros ->; congruence). by rewrite lookup_insert_ne.
Qed.

Lemma functions_steps P s s' q f :
  steps P s s' → functions s !! q = Some f → functions s' !! q = Some f.
Proof. induction 1; eauto using functions_astep. Qed.

(** *** Looking ahead on two different objects, in either order *)

Lemma lookahead_other p q s :
  p ≠ q →
  values (lookahead call (It (Some p)) s).2 !! q = values s !! q.
Proof.
  intros Hne. destruct (values s !! p) as [c|] eqn:H.
  - destruct (last c || value_valid c) eqn:Hs.
    + by rewrite (lookahead_settled _ _ _ H Hs).
    + rewrite (lookahead_call _ _ _ H Hs); simpl. by rewrite lookup_insert_ne.
  - by rewrite (lookahead_dangling _ _ H).
Qed.

(** An iterator that needs no look-ahead: it is empty, at the end or
    holds a value. *)
Lemma lookahead_idle x s :
  wants_lookahead x s = (Normal false, s) → lookahead call x s = (Normal (), s).
Proof. intros H. unfold lookahead, bind. by rewrite H. Qed.

Lemma wants_lookahead_kept x y s :
  wants_lookahead x s = (Normal false, s) →
  wants_lookahead x (lookahead call y s).2
    = (Normal false, (lookahead call y s).2) :> outcome E bool * State.
Proof.
  destruct x as [[p|]]; [|done]. intros Hw.
  destruct (values s !! p) as [c|] eqn:Hc.
  2:{ unfold wants_lookahead, bind in Hw; simpl in Hw.
      by rewrite (load_None _ _ Hc) in Hw. }
  rewrite (wants_lookahead_cell _ _ _ Hc) in Hw.
  assert (last c || value_valid c = true) as Hs.
  { injection Hw as Hw. by destruct (last c || value_valid c). }
  assert (values (lookahead call y s).2 !! p = Some c) as Hc'.
  { destruct y as [[q|]]; [|done].
    destruct (decide (q = p)) as [->|Hne].
    - by rewrite (lookahead_settled _ _ _ Hc Hs).
    - by rewrite lookahead_other. }
  by rewrite (wants_lookahead_cell _ _ _ Hc'), Hs.
Qed.

(** With a producer of value semantics, the outcome of a look-ahead and
    the object it leaves depend on the object alone. *)
Lemma lookahead_local p s t :
  value_semantics call →
  values s !! p = values t !! p →
  (lookahead call (It (Some p)) s).1 = (lookahead call (It (Some p)) t).1 ∧
  values (lookahead call (It (Some p)) s).2 !! p =
    values (lookahead call (It (Some p)) t).2 !! p.
Proof.
  intros Hvs Heq. destruct (values s !! p) as [c|] eqn:H; symmetry in Heq.
  - destruct (last c || value_valid c) eqn:Hs.
    + rewrite (lookahead_settled _ _ _ H Hs), (lookahead_settled _ _ _ Heq Hs).
      simpl. split; [done|congruence].
    + rewrite (lookahead_call _ _ _ H Hs), (lookahead_call _ _ _ Heq Hs).
      simpl. rewrite !lookup_insert_eq. unfold looked_ahead.
      rewrite (Hvs (fun_ c) (world s) (world t)). simpl.
      by destruct (call (fun_ c) (world s)) as [[r f'] w'].
  - rewrite (lookahead_dangling _ _ H), (lookahead_dangling _ _ Heq).
    simpl. split; [done|congruence].
Qed.

(** Two look-aheads can be made in either order when at most one of
    them calls a producer, or when the producers have value semantics. *)
Lemma lookahead_swap x y s s2 :
  wants_lookahead x s = (Normal false, s) ∨
  wants_lookahead y s = (Normal false, s) ∨
  value_semantics call →
  (lookahead call x ;;; lookahead call y) s = (Normal (), s2) →
  ∃ t2, (lookahead call y ;;; lookahead call x) s = (Normal (), t2)
        ∧ values t2 = values s2.
Proof.
  intros Hcond Hxy.
  destruct Hcond as [Hx|[Hy|Hvs]].
  { rewrite (bind_run _ _ _ _ _ (lookahead_idle _ _ Hx)) in Hxy.
    exists s2. split; [|done].
    pose proof (wants_lookahead_kept x y s Hx) as Hx'.
    rewrite Hxy in Hx'; simpl in Hx'.
    by rewrite (bind_run _ _ _ _ _ Hxy), (lookahead_idle _ _ Hx'). }
  { rewrite (bind_run _ _ _ _ _ (lookahead_idle _ _ Hy)).
    pose proof (wants_lookahead_kept y x s Hy) as Hy'.
    destruct (lookahead call x s) as [o1 s1] eqn:H1.
    rewrite (bind_run _ _ _ _ _ H1) in Hxy. destruct o1 as [[]| | |]; try done.
    simpl in Hy'. rewrite (lookahead_idle _ _ Hy') in Hxy.
    injection Hxy as <-. by exists s1. }
  destruct (lookahead call x s) as [o1 s1] eqn:H1.
  rewrite (bind_run _ _ _ _ _ H1) in Hxy. destruct o1 as [[]| | |]; try done.
  destruct x as [[p|]], y as [[q|]].
  - destruct (decide (p = q)) as [->|Hne].
    { exists s2. split; [|done]. by rewrite (bind_run _ _ _ _ _ H1). }
    destruct (lookahead call (It (Some q)) s) as [o2 t1] eqn:H2.
    destruct (lookahead call (It (Some p)) t1) as [o3 t2] eqn:H3.
    rewrite (bind_run _ _ _ _ _ H2).
    assert (values s1 !! q = values s !! q) as Hq.
    { rewrite <- (lookahead_other p q s Hne). by rewrite H1. }
    assert (values t1 !! p = values s !! p) as Hp.
    { rewrite <- (lookahead_other q p s (not_eq_sym Hne)). by rewrite H2. }
    destruct (lookahead_local q s1 s Hvs Hq) as [Ho2 Hc2].
    rewrite Hxy, H2 in Ho2, Hc2.
    destruct (lookahead_local p t1 s Hvs Hp) as [Ho3 Hc3].
    rewrite H3, H1 in Ho3, Hc3.
    simpl in *. subst o2 o3. exists t2. rewrite H3. split; [done|].
    pose proof (lookahead_other p) as Op. pose proof (lookahead_other q) as Oq.
    apply map_eq. intros l.
    destruct (decide (l = p)) as [->|Hlp]; [|destruct (decide (l = q)) as [->|Hlq]].
    + rewrite Hc3. rewrite <- (Oq p s1) by done. by rewrite Hxy.
    + rewrite Hc2. rewrite <- (Op q t1) by done. by rewrite H3.
    + transitivity (values s !! l).
      * rewrite <- (Oq l s), H2 by done; simpl.
        rewrite <- (Op l t1), H3 by done. done.
      * rewrite <- (Op l s), H1 by done; simpl.
        rewrite <- (Oq l s1), Hxy by done. done.
  - simpl in Hxy. injection Hxy as <-. exists s1. by rewrite lookahead_null.
  - simpl in H1. injection H1 as <-. exists s2. split; [|done].
    by rewrite (bind_run _ _ _ _ _ Hxy).
  - exists s2. split; [|done]. injection H1 as <-. injection Hxy as <-. reflexivity.
Qed.

(** *** Outcomes of [operator==] *)

Lemma lookahead_live x y s :
  live s y → live (lookahead call x s).2 y.
Proof.
  destruct y as [[q|]]; [|done]. unfold live; simpl. intros [d Hd].
  destruct x as [[p|]]; [|eauto].
  destruct (decide (p = q)) as [->|Hne]; [|by rewrite lookahead_other; eauto].
  destruct (last d || value_valid d) eqn:Hs.
  - rewrite (lookahead_settled _ _ _ Hd Hs). eauto.
  - rewrite (lookahead_call _ _ _ Hd Hs); simpl. rewrite lookup_insert_eq. eauto.
Qed.

Lemma lookahead_outcome x s :
  live s x →
  (lookahead call x s).1 = Normal () ∨ ∃ e, (lookahead call x s).1 = Thrown (other e).
Proof.
  destruct x as [[p|]]; [|by left]. intros [c H].
  destruct (last c || value_valid c) eqn:Hs.
  - rewrite (lookahead_settled _ _ _ H Hs). by left.
  - rewrite (lookahead_call _ _ _ H Hs); simpl.
    destruct (call (fun_ c) (world s)).1.1 as [a|[|e]]; eauto.
Qed.

Lemma compare_ends_live x y s :
  live s x → live s y →
  compare_ends (E:=E) x y s = (Normal (eqb (at_end s x) (at_end s y)), s).
Proof.
  unfold live, compare_ends, null_or_last, bind, load, ret, at_end.
  destruct x as [[p|]], y as [[q|]]; simpl.
  - intros [c Hc] [d Hd]. repeat (progress (rewrite ?Hc, ?Hd; simpl)). done.
  - intros [c Hc] _. repeat (progress (rewrite ?Hc; simpl)). done.
  - intros _ [d Hd]. repeat (progress (rewrite ?Hd; simpl)). done.
  - done.
Qed.

Lemma wants_lookahead_after x y s s1 s2 :
  lookahead call x s = (Normal (), s1) →
  (lookahead call y s1).2 = s2 →
  wants_lookahead x s2 = (Normal false, s2) :> outcome E bool * State.
Proof.
  intros H1 H2. apply lookahead_post in H1.
  destruct x as [[p|]]; [|done]. simpl in H1. destruct H1 as (c1 & Hc1 & Hs1).
  assert (values s2 !! p = Some c1) as Hc2.
  { subst s2. destruct y as [[q|]]; [|done].
    destruct (decide (q = p)) as [->|Hne].
    - by rewrite (lookahead_settled _ _ _ Hc1 Hs1).
    - by rewrite lookahead_other. }
  by rewrite (wants_lookahead_cell _ _ _ Hc2), Hs1.
Qed.

Lemma at_end_values x s t : values s = values t → at_end s x = at_end t x.
Proof. intros Heq. unfold at_end. by rewrite Heq. Qed.

Lemma live_values x s t : values s = values t → live s x → live t x.
Proof. intros Heq. unfold live. by rewrite Heq. Qed.

Lemma eqb_comm (a b : bool) : eqb a b = eqb b a.
Proof. by destruct a, b. Qed.

(** The look-ahead of the source is the forced look-ahead of the
    specification. *)
Lemma lookahead_forced x s : lookahead call x s = forced call x s.
Proof.
  destruct x as [[p|]]; [|done]. unfold forced; simpl.
  destruct (values s !! p) as [c|] eqn:Hc.
  2:{ by rewrite (lookahead_dangling _ _ Hc). }
  destruct (last c || value_valid c) eqn:Hs.
  { by rewrite (lookahead_settled _ _ _ Hc Hs). }
  rewrite (lookahead_call _ _ _ Hc Hs). unfold looked_ahead. rewrite Hs.
  apply orb_false_elim in Hs as [Hl Hv]. destruct c as [l vv f o]; simpl in *.
  subst l vv.
  by destruct (call f (world s)) as [[[a|[|e]] f'] w'].
Qed.

Lemma same_end_status_spec x y s :
  live s x → live s y →
  (lookahead call x ;;; lookahead call y ;;; compare_ends x y) s
    = same_end_status call x y s.
Proof.
  intros Hx Hy. unfold same_end_status, bind.
  rewrite <- (lookahead_forced x s).
  pose proof (lookahead_live x x s Hx) as Hx1.
  pose proof (lookahead_live x y s Hy) as Hy1.
  destruct (lookahead call x s) as [[[]| | |] s1]; try done. simpl in *.
  rewrite <- (lookahead_forced y s1).
  pose proof (lookahead_live y x s1 Hx1) as Hx2.
  pose proof (lookahead_live y y s1 Hy1) as Hy2.
  destruct (lookahead call y s1) as [[[]| | |] s2]; try done. simpl in *.
  by apply compare_ends_live.
Qed.

(** A look-ahead adds to the history at most the call it makes; when it
    throws, that call is the newest entry. *)
Lemma lookahead_history x s :
  calls s `suffix_of` calls (lookahead call x s).2 ∧
  ∀ e, (lookahead call x s).1 = Thrown (other e) →
    ∃ p, v x = Some p ∧ calls (lookahead call x s).2 = (p, inr (other e)) :: calls s.
Proof.
  destruct x as [[p|]]; [|split; [reflexivity|done]].
  destruct (values s !! p) as [c|] eqn:Hc.
  2:{ rewrite (lookahead_dangling _ _ Hc). split; [reflexivity|done]. }
  destruct (last c || value_valid c) eqn:Hs.
  { rewrite (lookahead_settled _ _ _ Hc Hs). split; [reflexivity|done]. }
  rewrite (lookahead_call _ _ _ Hc Hs); simpl. split.
  { by apply suffix_cons_r. }
  intros e He. exists p. split; [done|].
  by destruct (call (fun_ c) (world s)).1.1 as [a|[|e']]; simplify_eq.
Qed.

(** C8, amended: [x == y] looks ahead once on each side that is neither empty, at
    the end nor holding a value, the left side first, and then returns
    whether the two sides agree on being at the end, where an empty
    (default-constructed) iterator counts as at the end: it is the
    comparison [same_end_status] of the specification, with the same
    result and the same store, whatever the depth of the recursion
    beyond two.  Against an empty iterator the answer is read off the
    object and its producer: true at the end, false with a value looked
    ahead, and otherwise whether the producer, called once, signals the
    end.  Two iterators on different objects whose producers both
    return a value, the left one called first, compare equal whatever
    the values.  The only other outcome is an exception
    that is not [std::out_of_range], thrown by a producer this
    comparison called: that call is the newest entry of the history.
    [y == x] returns the same when at most one side needs a look-ahead,
    or when the producers have value semantics; then both orders leave
    the same objects. *)
Theorem operator_eq_compares_end_status x y s :
  live s x → live s y →
  let r := operator_eq call x y s in
  (∀ n, operator_eq_fuel call (S (S n)) x y s = r) ∧
  r = same_end_status call x y s ∧
  (∀ p c, v x = Some p → v y = None → values s !! p = Some c →
     r.1 = if last c then Normal true
           else if value_valid c then Normal false
           else match (call (fun_ c) (world s)).1.1 with
                | inl _ => Normal false
                | inr out_of_range => Normal true
                | inr (other e) => Thrown (other e)
                end) ∧
  (∀ p q c d a b fa fb wa wb,
     v x = Some p → v y = Some q → p ≠ q →
     values s !! p = Some c → values s !! q = Some d →
     last c || value_valid c = false → last d || value_valid d = false →
     call (fun_ c) (world s) = (inl a, fa, wa) →
     call (fun_ d) wa = (inl b, fb, wb) →
     r.1 = Normal true ∧ world r.2 = wb ∧
     calls r.2 = (q, inl b) :: (p, inl a) :: calls s) ∧
  ((∃ e p l, r.1 = Thrown (other e) ∧ (v x = Some p ∨ v y = Some p) ∧
             calls r.2 = (p, inr (other e)) :: l ∧ calls s `suffix_of` l) ∨
   ∃ b, r.1 = Normal b ∧
     wants_lookahead x r.2 = (Normal false, r.2) ∧
     wants_lookahead y r.2 = (Normal false, r.2) ∧
     b = eqb (at_end r.2 x) (at_end r.2 y) ∧
     (b = true ↔ at_end r.2 x = at_end r.2 y) ∧
     (at_end r.2 x = false → at_end r.2 y = false → b = true) ∧
     (v y = None → b = at_end r.2 x) ∧
     (wants_lookahead x s = (Normal false, s) ∨
      wants_lookahead y s = (Normal false, s) ∨
      value_semantics call →
      ∃ t, operator_eq call y x s = (Normal b, t) ∧ values t = values r.2)).
Proof.
  intros Hx Hy r. split.
  { intros n. subst r. unfold operator_eq. by rewrite !operator_eq_fuel_two. }
  split.
  { subst r. unfold operator_eq.
    by rewrite operator_eq_fuel_two, same_end_status_spec. }
  split.
  { intros p c Hvx Hvy Hc. subst r. unfold operator_eq.
    rewrite operator_eq_fuel_two, same_end_status_spec by done.
    destruct x as [vx], y as [vy]; simpl in *; subst vx vy.
    unfold same_end_status, bind, forced, at_end; simpl. rewrite Hc.
    destruct (last c) eqn:Hl; simpl; [by rewrite Hc, Hl|].
    destruct (value_valid c) eqn:Hv; simpl; [by rewrite Hc, Hl|].
    destruct (call (fun_ c) (world s)) as [[[a|[|e]] f'] w']; simpl;
      by rewrite ?lookup_insert_eq. }
  split.
  { intros p q c d a b fa fb wa wb Hvx Hvy Hne Hc Hd Hsc Hsd Ha Hb.
    subst r. unfold operator_eq.
    rewrite operator_eq_fuel_two, same_end_status_spec by done.
    destruct x as [vx], y as [vy]; simpl in *; subst vx vy.
    unfold same_end_status, bind, forced, at_end; simpl.
    rewrite Hc, Hsc, Ha; simpl.
    rewrite lookup_insert_ne, Hd, Hsd, Hb by done; simpl.
    rewrite lookup_insert_eq, lookup_insert_ne, lookup_insert_eq by done.
    done. }
  subst r. unfold operator_eq. rewrite !operator_eq_fuel_two.
  pose proof (lookahead_outcome x s Hx) as Ho1.
  pose proof (lookahead_live x x s Hx) as Hx1.
  pose proof (lookahead_live x y s Hy) as Hy1.
  destruct (lookahead_history x s) as [Hsuf1 Hthrow1].
  destruct (lookahead call x s) as [o1 s1] eqn:H1; simpl in *.
  rewrite (bind_run _ _ _ _ _ H1).
  destruct Ho1 as [->|[e ->]].
  2:{ left. destruct (Hthrow1 e eq_refl) as (p & Hp & Hcalls).
      exists e, p, (calls s). simpl. eauto 6. }
  pose proof (lookahead_outcome y s1 Hy1) as Ho2.
  pose proof (lookahead_live y x s1 Hx1) as Hx2.
  pose proof (lookahead_live y y s1 Hy1) as Hy2.
  pose proof (wants_lookahead_after x y s s1 _ H1 eq_refl) as Hwx.
  destruct (lookahead_history y s1) as [Hsuf2 Hthrow2].
  destruct (lookahead call y s1) as [o2 s2] eqn:H2; simpl in *.
  rewrite (bind_run _ _ _ _ _ H2).
  destruct Ho2 as [->|[e ->]].
  2:{ left. destruct (Hthrow2 e eq_refl) as (q & Hq & Hcalls).
      exists e, q, (calls s1). simpl. eauto 6. }
  right. rewrite (compare_ends_live x y s2 Hx2 Hy2); simpl.
  eexists; split; [done|].
  split; [done|]. split.
  { apply lookahead_post in H2. destruct y as [[q|]]; [|done].
    destruct H2 as (c2 & Hc2 & Hs2).
    by rewrite (wants_lookahead_cell _ _ _ Hc2), Hs2. }
  split; [done|]. split.
  { by destruct (at_end s2 x), (at_end s2 y). }
  split.
  { by intros -> ->. }
  split.
  { intros Hnull. unfold at_end at 2. rewrite Hnull. by destruct (at_end s2 x). }
  intros Hcond.
  destruct (lookahead_swap x y s s2 Hcond) as (t2 & Ht2 & Hvals).
  { by rewrite (bind_run _ _ _ _ _ H1). }
  exists t2. split; [|done].
  rewrite <- bind_assoc. rewrite (bind_run _ _ _ _ _ Ht2).
  rewrite compare_ends_live by (eapply live_values; [symmetry; exact Hvals|done]).
  by rewrite !(at_end_values _ t2 s2 Hvals), eqb_comm.
Qed.

(** *** The end is final *)

Lemma eq_end_of_ended p c s :
  values s !! p = Some c → last c = true →
  operator_eq call (It (Some p)) (It None) s = (Normal true, s) ∧
  operator_eq call (It None) (It (Some p)) s = (Normal true, s).
Proof.
  intros Hc Hl. unfold operator_eq. rewrite !operator_eq_fuel_two.
  assert (last c || value_valid c = true) as Hs by (by rewrite Hl).
  assert (live s (It (Some p))) as Hlive by (by exists c).
  split.
  - rewrite (bind_run _ _ _ _ _ (lookahead_settled _ _ _ Hc Hs)); cbv beta iota.
    rewrite lookahead_null, compare_ends_live by done.
    unfold at_end; simpl. by rewrite Hc, Hl.
  - rewrite lookahead_null.
    rewrite (bind_run _ _ _ _ _ (lookahead_settled _ _ _ Hc Hs)); cbv beta iota.
    rewrite compare_ends_live by done.
    unfold at_end; simpl. by rewrite Hc, Hl.
Qed.

(** C2: in every store reached from a consistent one by whatever
    operations, the producer of an object has signalled the end at most
    once; and once it has, no later operation calls that producer again
    (the object's history stays as it is), and every iterator that shares
    the object compares equal to the empty end iterator, from either
    side. *)
Theorem end_signal_is_final os s p :
  history_ok s →
  let s1 := exec_all call os s in
  history_ok s1 ∧
  end_signals p s1 ≤ 1 ∧
  (0 < end_signals p s1 →
   ∀ os', let s2 := exec_all call os' s1 in
     calls_of p s2 = calls_of p s1 ∧
     ∀ x y, v x = Some p → v y = None →
       operator_eq call x y s2 = (Normal true, s2) ∧
       operator_eq call y x s2 = (Normal true, s2) ∧
       operator_ne call x y s2 = (Normal false, s2)).
Proof.
  intros Hok s1.
  assert (history_ok s1) as Hok1.
  { eapply history_ok_steps; [apply exec_all_steps|done]. }
  split; [done|]. split; [apply Hok1|].
  intros Hpos os' s2.
  destruct (Hok1 p) as (_ & Hsig & _).
  destruct (Hsig Hpos) as (c & Hc & Hl).
  destruct (ended_steps _ _ _ _ _ (exec_all_steps os' s1) Hc Hl)
    as (c2 & Hc2 & Hl2 & _ & Hcalls).
  split; [done|].
  intros [vx] [vy] Hx Hy; simpl in *; subst vx vy.
  destruct (eq_end_of_ended _ _ _ Hc2 Hl2) as [He1 He2].
  split; [done|]. split; [done|].
  unfold operator_ne. by rewrite (bind_run _ _ _ _ _ He1).
Qed.

(** *** Asking for the next value, then taking it *)

Lemma eq_end_fresh p c s :
  values s !! p = Some c → last c = false → value_valid c = false →
  operator_eq call (It (Some p)) (It None) s =
    (match (call (fun_ c) (world s)).1.1 with
     | inl _ => Normal false
     | inr out_of_range => Normal true
     | inr (other e) => Thrown (other e)
     end,
     logged p (call (fun_ c) (world s)).1.1
       (with_world (call (fun_ c) (world s)).2
          (put p (looked_ahead call (world s) c) s))).
Proof.
  intros Hc Hl Hv. unfold operator_eq. rewrite operator_eq_fuel_two.
  assert (last c || value_valid c = false) as Hs by (by rewrite Hl, Hv).
  rewrite (bind_run _ _ _ _ _ (lookahead_call _ _ _ Hc Hs)).
  unfold looked_ahead. rewrite Hs.
  destruct (call (fun_ c) (world s)) as [[[a|[|e]] f1] w1]; simpl; [| |done].
  - rewrite lookahead_null, compare_ends_live
      by (try done; eexists; apply lookup_insert_eq).
    unfold at_end; simpl. by rewrite lookup_insert_eq; simpl; rewrite Hl.
  - rewrite lookahead_null, compare_ends_live
      by (try done; eexists; apply lookup_insert_eq).
    unfold at_end; simpl. by rewrite lookup_insert_eq.
Qed.

Lemma eq_end_cached p c s :
  values s !! p = Some c → last c = false → value_valid c = true →
  operator_eq call (It (Some p)) (It None) s = (Normal false, s).
Proof.
  intros Hc Hl Hv. unfold operator_eq. rewrite operator_eq_fuel_two.
  assert (last c || value_valid c = true) as Hs by (by rewrite Hl, Hv).
  rewrite (bind_run _ _ _ _ _ (lookahead_settled _ _ _ Hc Hs)); cbv beta iota.
  rewrite lookahead_null, compare_ends_live by (try done; by eexists).
  unfold at_end; simpl. by rewrite Hc, Hl.
Qed.

Lemma exec_all_replicate_fixed k o s :
  exec call o s = s → exec_all call (replicate k o) s = s.
Proof. intros H. induction k as [|k IH]; [done|]. simpl. by rewrite H. Qed.

(** C3: at a position where nothing has been looked ahead, the query
    [x == end] calls the producer exactly once.  If the producer returns
    a value, the query answers "not at the end" and the object holds the
    value; asking again, any number of times, calls nothing and changes
    nothing; and the next dereference returns exactly that value without
    calling the producer.  If the producer signals the end, the query
    answers "at the end" and asking again calls nothing. *)
Theorem lookahead_once_per_position x y p c s k :
  v x = Some p → v y = None →
  values s !! p = Some c → last c = false → value_valid c = false →
  let r := (call (fun_ c) (world s)).1.1 in
  let s1 := (operator_eq call x y s).2 in
  calls s1 = (p, r) :: calls s ∧
  (∀ a, r = inl a →
     operator_eq call x y s = (Normal false, s1) ∧
     (∃ c1, values s1 !! p = Some c1 ∧ value_valid c1 = true ∧ value c1 = Some a) ∧
     operator_eq call x y s1 = (Normal false, s1) ∧
     exec_all call (replicate k (OpEq x y)) s1 = s1 ∧
     ∃ s2, operator_deref call x s1 = (Normal a, s2) ∧ calls s2 = calls s1 ∧
           ∃ c2, values s2 !! p = Some c2 ∧ value_valid c2 = false
                 ∧ fun_ c2 = (call (fun_ c) (world s)).1.2) ∧
  (r = inr out_of_range →
     operator_eq call x y s = (Normal true, s1) ∧
     operator_eq call x y s1 = (Normal true, s1) ∧
     exec_all call (replicate k (OpEq x y)) s1 = s1).
Proof.
  destruct x as [vx], y as [vy]; simpl. intros -> -> Hc Hl Hv.
  rewrite (eq_end_fresh _ _ _ Hc Hl Hv); simpl.
  split; [done|]. unfold looked_ahead. rewrite Hl, Hv; simpl.
  destruct (call (fun_ c) (world s)) as [[r f1] w1]; simpl. split.
  - intros a ->.
    set (c1 := set_value_valid true (set_value a (set_fun f1 c))).
    set (s1 := logged p (inl a) (with_world w1 (put p c1 s))).
    assert (values s1 !! p = Some c1) as Hc1 by apply lookup_insert_eq.
    pose proof (eq_end_cached _ _ _ Hc1 Hl eq_refl) as Heq.
    split; [done|]. split; [by exists c1|]. split; [done|].
    split; [apply exec_all_replicate_fixed; simpl; by rewrite Heq|].
    rewrite (deref_cached _ _ _ Hc1 eq_refl); simpl. rewrite Hl.
    eexists; split; [done|]. split; [done|].
    eexists; split; [apply lookup_insert_eq|done].
  - intros ->.
    set (c1 := set_last true (set_fun f1 c)).
    set (s1 := logged p (inr out_of_range) (with_world w1 (put p c1 s))).
    assert (values s1 !! p = Some c1) as Hc1 by apply lookup_insert_eq.
    destruct (eq_end_of_ended _ _ _ Hc1 eq_refl) as [Heq _].
    split; [done|]. split; [done|].
    apply exec_all_replicate_fixed; simpl; by rewrite Heq.
Qed.

(** *** Reading a whole sequence *)

Lemma ne_end_fresh_value p c s a f1 w1 :
  values s !! p = Some c → last c = false → value_valid c = false →
  call (fun_ c) (world s) = (inl a, f1, w1) →
  operator_ne call (It (Some p)) (It None) s =
    (Normal true,
     logged p (inl a)
       (with_world w1
          (put p (set_value_valid true (set_value a (set_fun f1 c))) s))).
Proof.
  intros Hc Hl Hv Hcall. unfold operator_ne.
  rewrite (bind_run _ _ _ _ _ (eq_end_fresh _ _ _ Hc Hl Hv)).
  unfold looked_ahead. by rewrite Hcall, Hl, Hv.
Qed.

Lemma ne_end_fresh_end p c s f1 w1 :
  values s !! p = Some c → last c = false → value_valid c = false →
  call (fun_ c) (world s) = (inr out_of_range, f1, w1) →
  operator_ne call (It (Some p)) (It None) s =
    (Normal false,
     logged p (inr out_of_range)
       (with_world w1 (put p (set_last true (set_fun f1 c)) s))).
Proof.
  intros Hc Hl Hv Hcall. unfold operator_ne.
  rewrite (bind_run _ _ _ _ _ (eq_end_fresh _ _ _ Hc Hl Hv)).
  unfold looked_ahead. by rewrite Hcall, Hl, Hv.
Qed.

Lemma ne_end_ended p c s :
  values s !! p = Some c → last c = true →
  operator_ne call (It (Some p)) (It None) s = (Normal false, s).
Proof.
  intros Hc Hl. unfold operator_ne.
  destruct (eq_end_of_ended _ _ _ Hc Hl) as [Heq _].
  by rewrite (bind_run _ _ _ _ _ Heq).
Qed.

Lemma for_each_spec xs : ∀ p c s f' w' fuel,
  values s !! p = Some c → last c = false → value_valid c = false →
  produces call (fun_ c) (world s) xs f' w' → length xs < fuel →
  ∃ s' c',
    for_each call fuel (It (Some p)) (It None) s = (Normal xs, s') ∧
    calls s' = (p, inr out_of_range) :: reverse ((λ a, (p, inl a)) <$> xs) ++ calls s ∧
    values s' = <[p := c']> (values s) ∧ functions s' = functions s ∧
    world s' = w' ∧
    last c' = true ∧ value_valid c' = false ∧ fun_ c' = f'.
Proof.
  induction xs as [|a xs IH]; intros p c s f' w' fuel Hc Hl Hv Hprod Hfuel;
    (destruct fuel as [|fuel]; [simpl in Hfuel; lia|]); simpl in Hprod.
  - exists (logged p (inr out_of_range)
              (with_world w' (put p (set_last true (set_fun f' c)) s))),
           (set_last true (set_fun f' c)).
    simpl. rewrite (bind_run _ _ _ _ _ (ne_end_fresh_end _ _ _ _ _ Hc Hl Hv Hprod)).
    done.
  - destruct Hprod as (f1 & w1 & Hcall & Hprod).
    set (c1 := set_value_valid true (set_value a (set_fun f1 c))).
    set (s1 := logged p (inl a) (with_world w1 (put p c1 s))).
    assert (values s1 !! p = Some c1) as Hc1 by apply lookup_insert_eq.
    set (c2 := set_value_valid false c1).
    assert (values (put p c2 s1) !! p = Some c2) as Hc2 by apply lookup_insert_eq.
    destruct (IH p c2 (put p c2 s1) f' w' fuel Hc2 Hl eq_refl Hprod)
      as (s' & c' & Hrun & Hcalls & Hvals & Hfuns & Hw' & Hl' & Hv' & Hf');
      [simpl in Hfuel; lia|].
    exists s', c'. cbn [for_each].
    rewrite (bind_run _ _ _ _ _ (ne_end_fresh_value _ _ _ _ _ _ Hc Hl Hv Hcall)).
    cbv beta iota.
    rewrite (bind_run _ _ _ _ _ (deref_cached _ _ _ Hc1 eq_refl)).
    change (last c1) with (last c). rewrite Hl. cbn [value c1 set_value_valid set_value].
    unfold operator_preinc.
    rewrite (bind_run _ _ _ _ _ (eq_refl : ret (It (Some p)) (put p c2 s1) = (Normal _, _))).
    cbv beta iota. rewrite (bind_run _ _ _ _ _ Hrun).
    split; [done|]. split.
    { rewrite Hcalls. simpl. rewrite reverse_cons, <- app_assoc. done. }
    split.
    { rewrite Hvals. simpl. by rewrite !insert_insert_eq. }
    done.
Qed.

Lemma begin_spec r q f s :
  fun_ptr r = Some q → functions s !! q = Some f →
  begin r s =
    (Normal (It (Some (fresh (dom (values s))))),
     put (E:=E) (fresh (dom (values s))) (Values_of f) s).
Proof.
  destruct r as [vr]; simpl. intros -> Hq.
  unfold begin, bind, load_Function; simpl. by rewrite Hq.
Qed.

(** C4: the range-based loop over a range made from a producer that
    returns the values [xs] and then signals the end returns exactly
    [xs], in order, each value once; the producer has then been called
    once per value and once more for the end signal, in this order; and
    the iterator is single-pass: a second loop over it yields nothing and
    calls nothing. *)
Theorem range_for_yields_produced r q f xs f' w' s fuel :
  fun_ptr r = Some q → functions s !! q = Some f →
  produces call f (world s) xs f' w' → length xs < fuel →
  ∃ p s',
    values s !! p = None ∧
    range_for call fuel r s = (Normal xs, s') ∧
    calls s' =
      (p, inr out_of_range) :: reverse ((λ a, (p, inl a)) <$> xs) ++ calls s ∧
    for_each call fuel (It (Some p)) (It None) s' = (Normal [], s').
Proof.
  intros Hr Hq Hprod Hfuel.
  set (p := fresh (dom (values s))).
  assert (values (put p (Values_of f) s) !! p = Some (Values_of f)) as Hc
    by apply lookup_insert_eq.
  destruct (for_each_spec xs p _ _ f' w' fuel Hc eq_refl eq_refl Hprod Hfuel)
    as (s' & c' & Hrun & Hcalls & Hvals & _ & _ & Hl' & _).
  exists p, s'. split; [apply (new_Values_fresh (Values_of f))|].
  split.
  { unfold range_for. rewrite (bind_run _ _ _ _ _ (begin_spec _ _ _ _ Hr Hq)).
    cbv beta iota. unfold end_, FunctionInputIterator_default.
    by rewrite (bind_run _ _ _ _ _ (eq_refl : ret (It None) _ = (Normal _, _))). }
  split; [done|].
  assert (values s' !! p = Some c') as Hc' by (rewrite Hvals; apply lookup_insert_eq).
  destruct fuel as [|fuel]; [lia|]. cbn [for_each].
  by rewrite (bind_run _ _ _ _ _ (ne_end_ended _ _ _ Hc' Hl')).
Qed.

(** *** Dereferencing at the end *)

(** C9, amended: dereferencing an iterator whose object is at the end,
    or holds no looked-ahead value while the next call of its producer
    signals the end, throws [std::out_of_range] and leaves the object at
    the end; and a value that a dereference returns is the looked-ahead
    value or the one the producer returns in this very call, from an
    object that was not at the end. *)
Theorem deref_at_end_throws x p c s :
  v x = Some p → values s !! p = Some c →
  (last c = true ∨
   (value_valid c = false ∧ (call (fun_ c) (world s)).1.1 = inr out_of_range) →
   (operator_deref call x s).1 = Thrown out_of_range ∧
   at_end (operator_deref call x s).2 x = true) ∧
  (∀ a, (operator_deref call x s).1 = Normal a →
     last c = false ∧
     ((value_valid c = true ∧ value c = Some a) ∨
      (value_valid c = false ∧ (call (fun_ c) (world s)).1.1 = inl a))).
Proof.
  destruct x as [vx]; simpl. intros -> Hc.
  destruct (value_valid c) eqn:Hv.
  - rewrite (deref_cached _ _ _ Hc Hv); simpl. split.
    + intros [Hl|[? _]]; [|done]. rewrite Hl. split; [done|].
      unfold at_end; simpl. by rewrite lookup_insert_eq.
    + intros a. destruct (last c); [done|]. destruct (value c); [|done].
      intros [= ->]. eauto.
  - destruct (last c) eqn:Hl.
    + rewrite (deref_ended _ _ _ Hc Hl Hv); simpl. split; [|done].
      intros _. split; [done|]. unfold at_end; simpl. by rewrite Hc.
    + rewrite (deref_fresh _ _ _ Hc Hv Hl).
      destruct (call (fun_ c) (world s)) as [[[a|[|e]] f1] w1]; simpl;
        split; try done.
      * intros [?|[_ ?]]; done.
      * intros a' [= ->]. eauto.
      * intros _. split; [done|]. unfold at_end; simpl. by rewrite lookup_insert_eq.
      * intros [?|[_ ?]]; done.
Qed.

(** *** Copies of an iterator *)

(** C1: copying an iterator changes nothing in the store (no call of the
    producer, no reset) and yields an iterator on the same object, so
    every operation through the copy is the operation through the
    original.  In particular a value taken through the copy is gone for
    the original, which gets the next one; a value looked ahead through
    the copy is the one the original returns, with no further call; and
    an end signalled through the copy is the end for the original. *)
Theorem copy_shares_state x s :
  ∃ x',
    FunctionInputIterator_copy x s = (Normal x', s) ∧
    v x' = v x ∧
    (∀ s1, operator_deref call x' s1 = operator_deref call x s1) ∧
    (∀ y s1, operator_eq call x' y s1 = operator_eq call x y s1 ∧
             operator_eq call y x' s1 = operator_eq call y x s1) ∧
    (∀ p c, v x = Some p → values s !! p = Some c →
       last c = false → value_valid c = false →
       (∀ a b f1 f2 w1 w2,
          call (fun_ c) (world s) = (inl a, f1, w1) →
          call f1 w1 = (inl b, f2, w2) →
          (∃ s1 s2,
             operator_deref call x' s = (Normal a, s1) ∧
             operator_deref call x s1 = (Normal b, s2) ∧
             calls s2 = (p, inl b) :: (p, inl a) :: calls s) ∧
          (∃ s1 s2,
             operator_eq call x' (It None) s = (Normal false, s1) ∧
             operator_deref call x s1 = (Normal a, s2) ∧
             calls s2 = (p, inl a) :: calls s)) ∧
       (∀ f1 w1, call (fun_ c) (world s) = (inr out_of_range, f1, w1) →
          ∃ s1,
            operator_deref call x' s = (Thrown out_of_range, s1) ∧
            operator_eq call x (It None) s1 = (Normal true, s1) ∧
            calls s1 = (p, inr out_of_range) :: calls s)).
Proof.
  exists x. destruct x as [vx]; simpl.
  split; [done|]. split; [done|]. split; [done|]. split; [done|].
  intros p c -> Hc Hl Hv. split.
  - intros a b f1 f2 w1 w2 Ha Hb. split.
    + rewrite (deref_fresh _ _ _ Hc Hv Hl), Ha.
      set (c1 := set_value a (set_fun f1 c)).
      set (s1 := logged p (inl a) (with_world w1 (put p c1 s))).
      assert (values s1 !! p = Some c1) as Hc1 by apply lookup_insert_eq.
      exists s1. rewrite (deref_fresh _ _ _ Hc1 Hv Hl); simpl. rewrite Hb. eauto.
    + rewrite (eq_end_fresh _ _ _ Hc Hl Hv). unfold looked_ahead.
      rewrite Ha, Hl, Hv; simpl.
      set (c1 := set_value_valid true (set_value a (set_fun f1 c))).
      set (s1 := logged p (inl a) (with_world w1 (put p c1 s))).
      assert (values s1 !! p = Some c1) as Hc1 by apply lookup_insert_eq.
      exists s1. rewrite (deref_cached _ _ _ Hc1 eq_refl); simpl. rewrite Hl. eauto.
  - intros f1 w1 Ha. rewrite (deref_fresh _ _ _ Hc Hv Hl), Ha.
    set (c1 := set_last true (set_fun f1 c)).
    set (s1 := logged p (inr out_of_range) (with_world w1 (put p c1 s))).
    assert (values s1 !! p = Some c1) as Hc1 by apply lookup_insert_eq.
    exists s1. destruct (eq_end_of_ended _ _ _ Hc1 eq_refl) as [Heq _]. done.
Qed.

(** *** Two iterators from one range *)

Lemma live_astep P s s' p :
  astep call P s s' → is_Some (values s !! p) → is_Some (values s' !! p).
Proof.
  intros Hstep [c Hc].
  destruct Hstep as [s p0 c0 c' _ Hp _ _ _|s p0 c0 _ Hp|s p0 f Hp|s q f Hq]; simpl;
    try (destruct (decide (p0 = p)) as [->|Hne];
         [rewrite lookup_insert_eq|rewrite lookup_insert_ne by done]); eauto.
Qed.

Lemma live_steps P s s' p :
  steps P s s' → is_Some (values s !! p) → is_Some (values s' !! p).
Proof. induction 1; eauto using live_astep. Qed.

(** C10, amended: every call of [begin()] allocates a new object,
    initialised with a copy of the function object the range holds,
    whatever has happened since an earlier call, for instance values
    consumed through the earlier iterator; it calls no producer and
    leaves the world as it is.  The two iterators point to different
    objects: operations that do not name an iterator on the one object
    leave its flags, its value and its copy of the function object as
    they are.  So a dereference of the second iterator returns what the
    function object of the range returns in the world as it then is;
    with a producer of value semantics this is the first value of the
    producer, whatever was consumed through the first iterator. *)
Theorem begin_twice_independent r q f s os :
  fun_ptr r = Some q → functions s !! q = Some f →
  ∃ p1 s1,
    begin r s = (Normal (It (Some p1)), s1) ∧
    values s !! p1 = None ∧ values s1 !! p1 = Some (Values_of f) ∧
    world s1 = world s ∧
    let s1' := exec_all call os s1 in
    ∃ p2 s2,
      begin r s1' = (Normal (It (Some p2)), s2) ∧
      p2 ≠ p1 ∧ values s1' !! p2 = None ∧
      values s2 !! p2 = Some (Values_of f) ∧
      values s2 !! p1 = values s1' !! p1 ∧
      calls s2 = calls s1' ∧ world s2 = world s1' ∧
      (∀ os2, (∀ o, o ∈ os2 → ¬ touches o p2) →
         let s3 := exec_all call os2 s2 in
         values s3 !! p2 = Some (Values_of f) ∧
         (operator_deref call (It (Some p2)) s3).1 =
           match (call f (world s3)).1.1 with
           | inl a => Normal a
           | inr e => Thrown e
           end ∧
         (value_semantics call →
          ∀ w a f1 w1, call f w = (inl a, f1, w1) →
            (operator_deref call (It (Some p2)) s3).1 = Normal a)) ∧
      (∀ os2 c1, (∀ o, o ∈ os2 → ¬ touches o p1) →
         values s2 !! p1 = Some c1 →
         values (exec_all call os2 s2) !! p1 = Some c1).
Proof.
  intros Hr Hq.
  set (p1 := fresh (dom (values s))).
  exists p1, (put p1 (Values_of f) s).
  split; [by apply (begin_spec r q)|].
  split; [apply (new_Values_fresh (Values_of f))|].
  split; [apply lookup_insert_eq|]. split; [done|].
  intros s1'.
  pose proof (exec_all_steps os (put p1 (Values_of f) s)) as Hsteps.
  fold s1' in Hsteps.
  assert (functions s1' !! q = Some f) as Hq' by (by eapply functions_steps).
  assert (is_Some (values s1' !! p1)) as Hlive.
  { eapply live_steps; [exact Hsteps|]. eexists. apply lookup_insert_eq. }
  set (p2 := fresh (dom (values s1'))).
  assert (values s1' !! p2 = None) as Hfresh by apply (new_Values_fresh (Values_of f)).
  assert (p2 ≠ p1) as Hne.
  { intros Heq. rewrite Heq in Hfresh. rewrite Hfresh in Hlive. by destruct Hlive. }
  exists p2, (put p2 (Values_of f) s1').
  split; [by apply (begin_spec r q)|]. split; [done|]. split; [done|].
  split; [apply lookup_insert_eq|].
  split; [simpl; by rewrite lookup_insert_ne|].
  split; [done|]. split; [done|]. split.
  - intros os2 Hos2 s3.
    destruct (frame_steps _ _ _ p2 (Values_of f)
                (exec_all_steps os2 (put p2 (Values_of f) s1'))) as [Hc2 _].
    { intros (o & Ho & Ht). by apply (Hos2 o). }
    { apply lookup_insert_eq. }
    fold s3 in Hc2. split; [done|].
    assert ((operator_deref call (It (Some p2)) s3).1 =
            match (call f (world s3)).1.1 with
            | inl a => Normal a
            | inr e => Thrown e
            end) as Hd.
    { rewrite (deref_fresh _ _ _ Hc2 eq_refl eq_refl). simpl.
      by destruct (call f (world s3)) as [[[a|[|e]] f1] w1]. }
    split; [done|]. intros Hvs w a f1 w1 Hcall.
    by rewrite Hd, (Hvs f w (world s3)), Hcall.
  - intros os2 c1 Hos2 Hc1.
    eapply frame_steps; [apply exec_all_steps| |done].
    intros (o & Ho & Ht). by apply (Hos2 o).
Qed.

(** * Further facts about the input side *)

(** *** The end iterator on the left *)

(** X1: comparing with the empty end iterator gives the same result and
    leaves the same store whichever side the end iterator is on, for
    every iterator and every store: [end == x] looks ahead on [x] through
    the recursive call; and [!=] returns the negation of [==] with the
    same store. *)
Theorem end_on_either_side x s :
  operator_eq call (It None) x s = operator_eq call x (It None) s ∧
  operator_ne call (It None) x s = operator_ne call x (It None) s ∧
  (operator_ne call x (It None) s).2 = (operator_eq call x (It None) s).2 ∧
  ∀ b, (operator_eq call x (It None) s).1 = Normal b →
       (operator_ne call x (It None) s).1 = Normal (negb b).
Proof.
  assert (operator_eq call (It None) x s = operator_eq call x (It None) s) as Heq.
  { unfold operator_eq. rewrite !operator_eq_fuel_two, lookahead_null.
    destruct (lookahead call x s) as [o1 s1] eqn:H1.
    rewrite !(bind_run _ _ _ _ _ H1). destruct o1 as [[]| | |]; [|done..].
    rewrite lookahead_null. apply compare_ends_comm. }
  split; [done|]. split; [unfold operator_ne, bind; by rewrite Heq|].
  unfold operator_ne, bind.
  destruct (operator_eq call x (It None) s) as [[b| | |] s1]; simpl; split;
    try done. by intros ? [= ->].
Qed.

(** *** Exceptions of the producer other than [std::out_of_range] *)

(** X2: when the producer throws something else than
    [std::out_of_range], the dereference, or the comparison with the end,
    throws the same and leaves the same store: the producer has been
    called once, the object holds no value and is not at the end.  The
    failure is not remembered: the next dereference calls the producer
    again and returns what it returns. *)
Theorem foreign_exception_propagates x p c s e f1 w1 :
  v x = Some p → values s !! p = Some c →
  last c = false → value_valid c = false →
  call (fun_ c) (world s) = (inr (other e), f1, w1) →
  let s1 := logged p (inr (other e)) (with_world w1 (put p (set_fun f1 c) s)) in
  operator_deref call x s = (Thrown (other e), s1) ∧
  operator_eq call x (It None) s = (Thrown (other e), s1) ∧
  at_end s1 x = false ∧
  wants_lookahead x s1 = (Normal true, s1) ∧
  ∀ a f2 w2, call f1 w1 = (inl a, f2, w2) →
    ∃ s2, operator_deref call x s1 = (Normal a, s2) ∧
          calls s2 = (p, inl a) :: (p, inr (other e)) :: calls s.
Proof.
  destruct x as [vx]; simpl. intros -> Hc Hl Hv Hcall.
  set (c1 := set_fun f1 c).
  assert (values (logged p (inr (other e)) (with_world w1 (put p c1 s))) !! p
          = Some c1) as Hc1
    by apply lookup_insert_eq.
  split; [by rewrite (deref_fresh _ _ _ Hc Hv Hl), Hcall|].
  split.
  { rewrite (eq_end_fresh _ _ _ Hc Hl Hv). unfold looked_ahead.
    by rewrite Hcall, Hl, Hv. }
  split; [unfold at_end; simpl; by rewrite lookup_insert_eq|].
  split; [rewrite (wants_lookahead_cell _ _ _ Hc1); simpl; by rewrite Hl, Hv|].
  intros a f2 w2 Hcall2.
  rewrite (deref_fresh _ _ _ Hc1 Hv Hl). simpl. rewrite Hcall2. eauto.
Qed.

(** *** The constructor from an rvalue *)

(** X3: the flag [last] of the constructor from an rvalue has no effect:
    with either value of the flag the constructor does what the
    constructor from a constant reference does, and the new iterator is
    not at the end; with a producer that has a value, it compares unequal
    to the end iterator and dereferences to that value even when built
    with [last = true]. *)
Theorem rvalue_constructor_ignores_last f b s :
  FunctionInputIterator_of_rvalue f b s = FunctionInputIterator_of f s ∧
  ∃ p s1,
    FunctionInputIterator_of_rvalue f true s = (Normal (It (Some p)), s1) ∧
    values s !! p = None ∧
    at_end s1 (It (Some p)) = false ∧
    ∀ a f1 w1, call f (world s) = (inl a, f1, w1) →
      (operator_eq call (It (Some p)) (It None) s1).1 = Normal false ∧
      (operator_deref call (It (Some p)) s1).1 = Normal a.
Proof.
  split; [done|].
  set (p := fresh (dom (values s))).
  exists p, (put p (Values_of f) s).
  assert (values (put p (Values_of f) s) !! p = Some (Values_of f)) as Hc
    by apply lookup_insert_eq.
  split; [done|]. split; [apply (new_Values_fresh (Values_of f))|].
  split; [unfold at_end; simpl; by rewrite lookup_insert_eq|].
  intros a f1 w1 Hcall. split.
  - rewrite (eq_end_fresh _ _ _ Hc eq_refl eq_refl). simpl. by rewrite Hcall.
  - rewrite (deref_fresh _ _ _ Hc eq_refl eq_refl). simpl. by rewrite Hcall.
Qed.

(** *** Incrementing does not advance *)

Lemma ne_end_cached p c s :
  values s !! p = Some c → last c = false → value_valid c = true →
  operator_ne call (It (Some p)) (It None) s = (Normal true, s).
Proof.
  intros Hc Hl Hv. unfold operator_ne.
  by rewrite (bind_run _ _ _ _ _ (eq_end_cached _ _ _ Hc Hl Hv)).
Qed.

Lemma distance_cached fuel p c s :
  values s !! p = Some c → last c = false → value_valid c = true →
  distance call fuel (It (Some p)) (It None) s = (OutOfFuel, s).
Proof.
  intros Hc Hl Hv. induction fuel as [|fuel IH]; [done|]. cbn [distance].
  rewrite (bind_run _ _ _ _ _ (ne_end_cached _ _ _ Hc Hl Hv)). cbv beta iota.
  unfold operator_preinc.
  rewrite (bind_run _ _ _ _ _ (eq_refl : ret (It (Some p)) s = (Normal _, s))).
  cbv beta iota. by rewrite (bind_run _ _ _ _ _ IH).
Qed.

(** X4: [operator++] does not advance, only [operator*] does.  So the
    loop of [std::distance], which compares and increments without
    dereferencing, never ends on an iterator that has a next value:
    whatever the bound on its rounds it is cut off, after calling the
    producer at most once; and after any number of increments a
    dereference still returns the first value.  On a producer that
    signals the end at once the loop returns 0. *)
Theorem distance_never_ends x p c s a f1 w1 fuel k :
  v x = Some p → values s !! p = Some c →
  last c = false → value_valid c = false →
  (call (fun_ c) (world s) = (inl a, f1, w1) →
     (distance call fuel x (It None) s).1 = OutOfFuel ∧
     (calls (distance call fuel x (It None) s).2 = calls s ∨
      calls (distance call fuel x (It None) s).2 = (p, inl a) :: calls s) ∧
     (operator_deref call x (exec_all call (replicate k (OpPreinc x)) s)).1
       = Normal a) ∧
  (call (fun_ c) (world s) = (inr out_of_range, f1, w1) →
     (distance call (S fuel) x (It None) s).1 = Normal 0).
Proof.
  destruct x as [vx]; simpl. intros -> Hc Hl Hv. split.
  - intros Hcall. split; [|split].
    + destruct fuel as [|fuel]; [done|]. cbn [distance].
      rewrite (bind_run _ _ _ _ _ (ne_end_fresh_value _ _ _ _ _ _ Hc Hl Hv Hcall)).
      cbv beta iota. unfold operator_preinc.
      erewrite bind_run by reflexivity. cbv beta iota.
      erewrite bind_run
        by (apply (distance_cached fuel p
                     (set_value_valid true (set_value a (set_fun f1 c))));
            [apply lookup_insert_eq|done..]).
      done.
    + destruct fuel as [|fuel]; [by left|right]. cbn [distance].
      rewrite (bind_run _ _ _ _ _ (ne_end_fresh_value _ _ _ _ _ _ Hc Hl Hv Hcall)).
      cbv beta iota. unfold operator_preinc.
      erewrite bind_run by reflexivity. cbv beta iota.
      erewrite bind_run
        by (apply (distance_cached fuel p
                     (set_value_valid true (set_value a (set_fun f1 c))));
            [apply lookup_insert_eq|done..]).
      done.
    + rewrite exec_all_replicate_fixed by done.
      by rewrite (deref_fresh _ _ _ Hc Hv Hl), Hcall.
  - intros Hcall. cbn [distance].
    by rewrite (bind_run _ _ _ _ _ (ne_end_fresh_end _ _ _ _ _ Hc Hl Hv Hcall)).
Qed.

(** *** Reading without asking for the end *)

Lemma read_n_spec xs : ∀ p c s f' w',
  values s !! p = Some c → last c = false → value_valid c = false →
  produces call (fun_ c) (world s) xs f' w' →
  ∃ s' c',
    read_n call (length xs) (It (Some p)) s = (Normal xs, s') ∧
    values s' !! p = Some c' ∧ last c' = false ∧ value_valid c' = false ∧
    call (fun_ c') (world s') = (inr out_of_range, f', w') ∧
    calls s' = reverse ((λ a, (p, inl a)) <$> xs) ++ calls s ∧
    read_n call (S (length xs)) (It (Some p)) s =
      (Thrown out_of_range,
       logged p (inr out_of_range)
         (with_world w' (put p (set_last true (set_fun f' c')) s'))).
Proof.
  induction xs as [|a xs IH]; intros p c s f' w' Hc Hl Hv Hprod; simpl in Hprod.
  - exists s, c. repeat split; try done. cbn [read_n length].
    assert (operator_deref call (It (Some p)) s
            = (Thrown out_of_range,
               logged p (inr out_of_range)
                 (with_world w' (put p (set_last true (set_fun f' c)) s))))
      as Hd by (by rewrite (deref_fresh _ _ _ Hc Hv Hl), Hprod).
    by rewrite (bind_run _ _ _ _ _ Hd).
  - destruct Hprod as (f1 & w1 & Hcall & Hprod).
    set (c1 := set_value a (set_fun f1 c)).
    set (s1 := logged p (inl a) (with_world w1 (put p c1 s))).
    assert (values s1 !! p = Some c1) as Hc1 by apply lookup_insert_eq.
    destruct (IH p c1 s1 f' w' Hc1 Hl Hv Hprod)
      as (s' & c' & Hrun & Hc' & Hl' & Hv' & Hend & Hcalls & Hmore).
    exists s', c'.
    assert (operator_deref call (It (Some p)) s = (Normal a, s1)) as Hd
      by (by rewrite (deref_fresh _ _ _ Hc Hv Hl), Hcall).
    assert (∀ n, read_n call (S n) (It (Some p)) s =
                 (xs' <- read_n call n (It (Some p)) ;; ret (a :: xs')) s1) as Hstep.
    { intros n. cbn [read_n]. rewrite (bind_run _ _ _ _ _ Hd). cbv beta iota.
      unfold operator_preinc. by erewrite bind_run by reflexivity. }
    cbn [length]. rewrite !Hstep.
    rewrite (bind_run _ _ _ _ _ Hrun), (bind_run _ _ _ _ _ Hmore).
    repeat split; try done.
    rewrite Hcalls. simpl. by rewrite reverse_cons, <- app_assoc.
Qed.

(** X5: dereferencing again and again, without ever comparing with the
    end, hands out the values of the producer in order, one producer call
    each; the dereference after the last value throws
    [std::out_of_range], with the one call in which the producer signals
    the end; and every later dereference throws again without calling the
    producer. *)
Theorem read_n_then_out_of_range x p c s xs f' w' :
  v x = Some p → values s !! p = Some c →
  last c = false → value_valid c = false →
  produces call (fun_ c) (world s) xs f' w' →
  ∃ s1 s2,
    read_n call (length xs) x s = (Normal xs, s1) ∧
    calls s1 = reverse ((λ a, (p, inl a)) <$> xs) ++ calls s ∧
    operator_deref call x s1 = (Thrown out_of_range, s2) ∧
    calls s2 = (p, inr out_of_range) :: calls s1 ∧
    read_n call (S (length xs)) x s = (Thrown out_of_range, s2) ∧
    operator_deref call x s2 = (Thrown out_of_range, s2).
Proof.
  destruct x as [vx]; simpl. intros -> Hc Hl Hv Hprod.
  destruct (read_n_spec xs p c s f' w' Hc Hl Hv Hprod)
    as (s1 & c1 & Hrun & Hc1 & Hl1 & Hv1 & Hend & Hcalls & Hmore).
  set (c2 := set_last true (set_fun f' c1)).
  set (s2 := logged p (inr out_of_range) (with_world w' (put p c2 s1))).
  assert (values s2 !! p = Some c2) as Hc2 by apply lookup_insert_eq.
  exists s1, s2. split; [done|]. split; [done|].
  split; [by rewrite (deref_fresh _ _ _ Hc1 Hv1 Hl1), Hend|].
  split; [done|]. split; [done|]. by apply (deref_ended _ _ _ Hc2).
Qed.

(** *** Iterating a range again *)

Lemma range_for_run r q f xs f' w' s fuel :
  fun_ptr r = Some q → functions s !! q = Some f →
  produces call f (world s) xs f' w' → length xs < fuel →
  ∃ s', range_for call fuel r s = (Normal xs, s') ∧
        functions s' = functions s ∧
        length (calls s') = S (length xs) + length (calls s).
Proof.
  intros Hr Hq Hprod Hfuel.
  set (p := fresh (dom (values s))).
  assert (values (put p (Values_of f) s) !! p = Some (Values_of f)) as Hc
    by apply lookup_insert_eq.
  destruct (for_each_spec xs p _ _ f' w' fuel Hc eq_refl eq_refl Hprod Hfuel)
    as (s' & c' & Hrun & Hcalls & _ & Hfuns & _).
  exists s'. split; [|split; [done|]].
  - unfold range_for. rewrite (bind_run _ _ _ _ _ (begin_spec _ _ _ _ Hr Hq)).
    cbv beta iota. unfold end_, FunctionInputIterator_default.
    by erewrite bind_run by reflexivity.
  - rewrite Hcalls. simpl. by rewrite length_app, length_reverse, length_fmap.
Qed.

(** X6: a range can be iterated again.  No operation of the header calls
    or changes the function object a range holds; so after a loop over
    the range, and whatever else is done in between, a second loop over
    the range, or over a copy of it, starts the sequence anew and returns
    the same values, calling a fresh copy of the producer as often as the
    first loop did.  This is for a producer whose function object
    returns the values [xs] and then signals the end whatever the world
    is: one with value semantics, for instance. *)
Theorem range_restarts r q f xs s fuel os :
  fun_ptr r = Some q → functions s !! q = Some f →
  (∀ w, ∃ f' w', produces call f w xs f' w') → length xs < fuel →
  functions (exec_all call os s) !! q = Some f ∧
  ∃ r' s1 s2,
    range_for call fuel r s = (Normal xs, s1) ∧
    FunctionInputIteratorRange_copy r s1 = (Normal r', s1) ∧
    range_for call fuel r' (exec_all call os s1) = (Normal xs, s2) ∧
    length (calls s2) = S (length xs) + length (calls (exec_all call os s1)).
Proof.
  intros Hr Hq Hprod Hfuel.
  split; [by eapply functions_steps; [apply exec_all_steps|]|].
  destruct (Hprod (world s)) as (f1 & w1 & Hprod1).
  destruct (range_for_run r q f xs f1 w1 s fuel Hr Hq Hprod1 Hfuel)
    as (s1 & Hrun1 & Hfuns1 & _).
  assert (functions (exec_all call os s1) !! q = Some f) as Hq1.
  { eapply functions_steps; [apply exec_all_steps|]. by rewrite Hfuns1. }
  destruct (Hprod (world (exec_all call os s1))) as (f2 & w2 & Hprod2).
  destruct (range_for_run (mkRange (fun_ptr r)) q f xs f2 w2 _ fuel Hr Hq1
              Hprod2 Hfuel)
    as (s2 & Hrun2 & _ & Hlen).
  exists (mkRange (fun_ptr r)), s1, s2. done.
Qed.

(** *** Nothing is lost, nothing comes twice *)

Lemma produced_logged p q r s :
  produced p (logged q r s) =
    if decide (q = p)
    then produced p s ++ match r with inl a => [a] | inr _ => [] end
    else produced p s.
Proof.
  unfold produced. rewrite calls_of_logged.
  destruct (decide (q = p)) as [_|_]; [|done]. simpl.
  destruct r as [a|ex]; simpl; [by rewrite reverse_cons|by rewrite app_nil_r].
Qed.

Lemma held_put p q c s :
  held p (put q c s) =
    if decide (q = p)
    then (if value_valid c then option_list (value c) else [])
    else held p s.
Proof.
  unfold held; simpl. destruct (decide (q = p)) as [->|Hne].
  - by rewrite lookup_insert_eq.
  - by rewrite lookup_insert_ne.
Qed.

Lemma cache_ok_empty (w : W) : cache_ok (@empty_state T Fn E W w).
Proof. intros p. simpl. by rewrite lookup_empty. Qed.

(** A producer call on [p0], after which the object is [c'] and [out]
    has been handed out. *)
Lemma conserved_call p d s p0 c0 c' out :
  conserved p d s →
  values s !! p0 = Some c0 → value_valid c0 = false →
  (value_valid c' = true → last c' = false ∧ is_Some (value c')) →
  match (call (fun_ c0) (world s)).1.1 with inl a => [a] | inr _ => [] end =
    out ++ (if value_valid c' then option_list (value c') else []) →
  conserved p (d ++ if decide (p0 = p) then out else [])
            (logged p0 (call (fun_ c0) (world s)).1.1
               (with_world (call (fun_ c0) (world s)).2 (put p0 c' s))).
Proof.
  intros [Hok Hd] Hc0 Hv0 Hc' Hout. split.
  - intros l. specialize (Hok l). simpl.
    destruct (decide (p0 = l)) as [<-|Hne].
    + by rewrite lookup_insert_eq.
    + rewrite lookup_insert_ne by done.
      destruct (values s !! l); [done|].
      by rewrite calls_of_logged, calls_of_with_world, calls_of_put,
        decide_False.
  - rewrite produced_logged. change (held p (logged ?q ?r ?t)) with (held p t).
    change (held p (with_world ?w ?t)) with (held p t).
    change (produced p (with_world ?w ?t)) with (produced p t).
    rewrite held_put. change (produced p (put ?q ?c ?t)) with (produced p t).
    destruct (decide (p0 = p)) as [->|Hne]; [|by rewrite app_nil_r].
    rewrite Hd, Hout. unfold held. rewrite Hc0, Hv0.
    by rewrite !app_nil_r, <- app_assoc.
Qed.

(** The value held for [p0] is taken. *)
Lemma conserved_take p d s p0 c0 :
  conserved p d s →
  values s !! p0 = Some c0 → value_valid c0 = true →
  conserved p (d ++ if decide (p0 = p) then option_list (value c0) else [])
            (put p0 (set_value_valid false c0) s).
Proof.
  intros [Hok Hd] Hc0 Hv0. split.
  - intros l. specialize (Hok l). simpl.
    destruct (decide (p0 = l)) as [<-|Hne].
    + by rewrite lookup_insert_eq.
    + by rewrite lookup_insert_ne.
  - change (produced p (put ?q ?c ?t)) with (produced p t). rewrite held_put.
    destruct (decide (p0 = p)) as [->|Hne]; [|by rewrite app_nil_r].
    simpl. rewrite Hd. unfold held. by rewrite Hc0, Hv0, app_nil_r.
Qed.

Lemma conserved_new p d s p0 f :
  conserved p d s → values s !! p0 = None →
  conserved p d (put p0 (Values_of f) s).
Proof.
  intros [Hok Hd] Hp0. split.
  - intros l. specialize (Hok l). simpl.
    destruct (decide (p0 = l)) as [<-|Hne].
    + by rewrite lookup_insert_eq.
    + by rewrite lookup_insert_ne.
  - change (produced p (put ?q ?c ?t)) with (produced p t). rewrite held_put.
    destruct (decide (p0 = p)) as [->|Hne]; [|done].
    simpl. rewrite Hd. unfold held. by rewrite Hp0.
Qed.

Lemma conserved_lookahead p d x s :
  conserved p d s → conserved p d (lookahead call x s).2.
Proof.
  intros Hcons. destruct x as [[p0|]]; [|done].
  destruct (values s !! p0) as [c0|] eqn:Hc0.
  2:{ by rewrite (lookahead_dangling _ _ Hc0). }
  destruct (last c0 || value_valid c0) eqn:Hs.
  { by rewrite (lookahead_settled _ _ _ Hc0 Hs). }
  rewrite (lookahead_call _ _ _ Hc0 Hs); simpl.
  apply orb_false_elim in Hs as [Hl Hv].
  pose proof (conserved_call p d s p0 c0 (looked_ahead call (world s) c0) [] Hcons Hc0 Hv)
    as Hstep.
  replace (d ++ (if decide (p0 = p) then [] else [])) with d in Hstep
    by (destruct (decide (p0 = p)); by rewrite app_nil_r).
  apply Hstep; unfold looked_ahead; rewrite Hl, Hv; simpl;
    destruct (call (fun_ c0) (world s)) as [[[a|[|e]] f1] w1]; simpl;
    rewrite ?Hl, ?Hv; done.
Qed.

Lemma conserved_deref p d x s :
  conserved p d s →
  conserved p (d ++ handed_out call p (OpDeref x) s) (operator_deref call x s).2.
Proof.
  intros Hcons. unfold handed_out. destruct x as [[p0|]]; simpl.
  2:{ by rewrite app_nil_r. }
  destruct (values s !! p0) as [c0|] eqn:Hc0.
  2:{ unfold operator_deref, bind; simpl. rewrite (load_None _ _ Hc0); simpl.
      destruct (decide _); by rewrite app_nil_r. }
  destruct (value_valid c0) eqn:Hv.
  - rewrite (deref_cached _ _ _ Hc0 Hv); simpl.
    destruct Hcons as [Hok Hd]. pose proof (Hok p0) as Hp0. rewrite Hc0 in Hp0.
    destruct (Hp0 Hv) as [Hl [a Ha]]. rewrite Hl, Ha.
    pose proof (conserved_take p d s p0 c0 (conj Hok Hd) Hc0 Hv) as Hstep.
    rewrite Ha in Hstep. simpl in Hstep.
    destruct (decide (p0 = p)) as [->|Hne].
    + by rewrite decide_True.
    + by rewrite decide_False by congruence.
  - destruct (last c0) eqn:Hl.
    { rewrite (deref_ended _ _ _ Hc0 Hl Hv); simpl.
      destruct (decide _); by rewrite app_nil_r. }
    rewrite (deref_fresh _ _ _ Hc0 Hv Hl).
    pose proof (λ c' out, conserved_call p d s p0 c0 c' out Hcons Hc0 Hv) as Hstep.
    destruct (call (fun_ c0) (world s)) as [[[a|[|e]] f1] w1] eqn:Hcall;
      simpl in *.
    + specialize (Hstep (set_value a (set_fun f1 c0)) [a]). simpl in Hstep.
      rewrite Hv in Hstep.
      destruct (decide (p0 = p)) as [->|Hne].
      * rewrite decide_True by done. by apply Hstep.
      * rewrite decide_False by congruence. by apply Hstep.
    + specialize (Hstep (set_last true (set_fun f1 c0)) []). simpl in Hstep.
      rewrite Hv in Hstep.
      destruct (decide (p0 = p)) as [->|Hne].
      * rewrite decide_True by done. by apply Hstep.
      * rewrite decide_False by congruence. by apply Hstep.
    + specialize (Hstep (set_fun f1 c0) []). simpl in Hstep.
      rewrite Hv in Hstep.
      destruct (decide (p0 = p)) as [->|Hne].
      * rewrite decide_True by done. by apply Hstep.
      * rewrite decide_False by congruence. by apply Hstep.
Qed.

Lemma conserved_eq_fuel p d n x y s :
  conserved p d s → conserved p d (operator_eq_fuel call n x y s).2.
Proof.
  intros Hcons.
  pose proof (conserved_lookahead p d x s Hcons) as Hx.
  destruct n as [|[|n]]; [done| |].
  - rewrite operator_eq_fuel_unfold.
    destruct (lookahead call x s) as [o1 s1] eqn:H1; simpl in Hx.
    rewrite (bind_run _ _ _ _ _ H1). destruct o1; try done.
    pose proof (wants_lookahead_state y s1) as Hw.
    destruct (wants_lookahead y s1) as [o2 s2] eqn:H2; simpl in Hw; subst s2.
    rewrite (bind_run _ _ _ _ _ H2).
    destruct o2 as [[]| | |]; try done.
    by rewrite compare_ends_state.
  - rewrite operator_eq_fuel_two.
    destruct (lookahead call x s) as [o1 s1] eqn:H1; simpl in Hx.
    rewrite (bind_run _ _ _ _ _ H1). destruct o1; try done.
    pose proof (conserved_lookahead p d y s1 Hx) as Hy.
    destruct (lookahead call y s1) as [o2 s2] eqn:H2; simpl in Hy.
    rewrite (bind_run _ _ _ _ _ H2). destruct o2; try done.
    by rewrite compare_ends_state.
Qed.

Lemma conserved_exec p d o s :
  conserved p d s →
  conserved p (d ++ handed_out call p o s) (exec call o s).
Proof.
  intros Hcons.
  destruct o; try (by apply conserved_deref);
    unfold handed_out; rewrite app_nil_r; simpl; try done.
  - by apply conserved_new, (new_Values_fresh (Values_of f)).
  - by apply conserved_new, (new_Values_fresh (Values_of f)).
  - by apply conserved_eq_fuel.
  - unfold operator_ne, bind, operator_eq.
    pose proof (conserved_eq_fuel p d 2 x y s Hcons) as H.
    by destruct (operator_eq_fuel call 2 x y s) as [[]?].
  - by apply conserved_eq_fuel.
  - unfold begin, bind. destruct r as [[q|]]; simpl; [|done].
    unfold load_Function. destruct (functions s !! q); simpl; [|done].
    by apply conserved_new, (new_Values_fresh (Values_of f)).
Qed.

Lemma conserved_exec_all p os : ∀ d s,
  conserved p d s →
  conserved p (d ++ delivered call p os s) (exec_all call os s).
Proof.
  induction os as [|o os IH]; intros d s Hcons; simpl.
  - by rewrite app_nil_r.
  - rewrite app_assoc. by apply IH, conserved_exec.
Qed.

(** X7: whatever operations a client applies, in whatever order, the
    values that dereferences of the iterators on one object return are,
    in order, the values that the object's producer returned, without a
    gap and without a repetition; the only produced value not yet
    returned is the one looked ahead and still held by the object.  The
    hypothesis is that this holds of the store at the start, as it does
    of the empty store with nothing handed out. *)
Theorem values_are_conserved p d os s :
  cache_ok s → produced p s = d ++ held p s →
  produced p (exec_all call os s) =
    d ++ delivered call p os s ++ held p (exec_all call os s).
Proof.
  intros Hok Hd.
  destruct (conserved_exec_all p os d s (conj Hok Hd)) as [_ Heq].
  by rewrite Heq, app_assoc.
Qed.

(** X8: in every store that operations lead to from one whose flags agree
    with its cache, the flags agree with the cache: an object holding a
    looked-ahead value is not at the end and its value has been assigned.
    So a dereference of an iterator on an object of such a store never
    reads a value that was not assigned: it returns a value or throws. *)
Theorem deref_never_undefined os s x p :
  cache_ok s →
  let s1 := exec_all call os s in
  cache_ok s1 ∧
  (v x = Some p → is_Some (values s1 !! p) →
   (operator_deref call x s1).1 ≠ Undefined ∧
   (operator_deref call x s1).1 ≠ OutOfFuel).
Proof.
  intros Hok s1.
  assert (cache_ok s1) as Hok1.
  { set (p0 := fresh (dom (values s))).
    assert (values s !! p0 = None) as Hp0 by apply not_elem_of_dom, is_fresh.
    assert (conserved p0 [] s) as Hcons.
    { split; [done|]. pose proof (Hok p0) as Hcalls. rewrite Hp0 in Hcalls.
      unfold produced, held. by rewrite Hcalls, Hp0. }
    apply (conserved_exec_all p0 os [] s Hcons). }
  split; [done|]. destruct x as [vx]; simpl. intros -> [c Hc].
  specialize (Hok1 p). rewrite Hc in Hok1.
  destruct (value_valid c) eqn:Hv.
  - rewrite (deref_cached _ _ _ Hc Hv); simpl.
    destruct (Hok1 eq_refl) as [-> [a ->]]. done.
  - destruct (last c) eqn:Hl.
    + by rewrite (deref_ended _ _ _ Hc Hl Hv).
    + rewrite (deref_fresh _ _ _ Hc Hv Hl).
      by destruct (call (fun_ c) (world s1)) as [[[a|[|e]] f1] w1].
Qed.

(** *** Endless producers *)

Lemma for_each_endless fuel : ∀ p c s,
  (∀ f w, ∃ a f1 w1, call f w = (inl a, f1, w1)) →
  values s !! p = Some c → last c = false → value_valid c = false →
  (for_each call fuel (It (Some p)) (It None) s).1 = OutOfFuel.
Proof.
  induction fuel as [|fuel IH]; intros p c s Hendless Hc Hl Hv; [done|].
  destruct (Hendless (fun_ c) (world s)) as (a & f1 & w1 & Hcall).
  cbn [for_each].
  rewrite (bind_run _ _ _ _ _ (ne_end_fresh_value _ _ _ _ _ _ Hc Hl Hv Hcall)).
  cbv beta iota.
  set (c1 := set_value_valid true (set_value a (set_fun f1 c))).
  set (s1 := logged p (inl a) (with_world w1 (put p c1 s))).
  assert (values s1 !! p = Some c1) as Hc1 by apply lookup_insert_eq.
  rewrite (bind_run _ _ _ _ _ (deref_cached _ _ _ Hc1 eq_refl)).
  change (last c1) with (last c). rewrite Hl. cbn [value c1 set_value_valid set_value].
  unfold operator_preinc. erewrite bind_run by reflexivity. cbv beta iota.
  specialize (IH p (set_value_valid false c1) (put p (set_value_valid false c1) s1)
                Hendless (lookup_insert_eq _ _ _) Hl eq_refl).
  destruct (for_each call fuel (It (Some p)) (It None)
              (put p (set_value_valid false c1) s1)) as [o s2] eqn:Hrec.
  rewrite (bind_run _ _ _ _ _ Hrec). simpl in IH. by subst o.
Qed.

Lemma read_n_endless n : ∀ p c s,
  (∀ f w, ∃ a f1 w1, call f w = (inl a, f1, w1)) →
  values s !! p = Some c → last c = false → value_valid c = false →
  ∃ xs s', read_n call n (It (Some p)) s = (Normal xs, s') ∧
           length xs = n ∧ length (calls s') = n + length (calls s).
Proof.
  induction n as [|n IH]; intros p c s Hendless Hc Hl Hv.
  - by exists [], s.
  - destruct (Hendless (fun_ c) (world s)) as (a & f1 & w1 & Hcall).
    set (c1 := set_value a (set_fun f1 c)).
    set (s1 := logged p (inl a) (with_world w1 (put p c1 s))).
    assert (values s1 !! p = Some c1) as Hc1 by apply lookup_insert_eq.
    destruct (IH p c1 s1 Hendless Hc1 Hl Hv) as (xs & s' & Hrun & Hlen & Hcalls).
    exists (a :: xs), s'. cbn [read_n].
    assert (operator_deref call (It (Some p)) s = (Normal a, s1)) as Hd
      by (by rewrite (deref_fresh _ _ _ Hc Hv Hl), Hcall).
    rewrite (bind_run _ _ _ _ _ Hd). cbv beta iota. unfold operator_preinc.
    erewrite bind_run by reflexivity. cbv beta iota.
    rewrite (bind_run _ _ _ _ _ Hrun). split; [done|]. simpl.
    split; [by rewrite Hlen|]. rewrite Hcalls. simpl. lia.
Qed.

(** X12: on a producer that never throws the adapter is lazy and the
    sequence endless: reading [n] values returns [n] values and calls the
    producer exactly [n] times, for every [n]; and the loop that reads
    until the end never ends, whatever the bound on its rounds. *)
Theorem endless_producer_is_read_lazily x p c s n fuel :
  (∀ f w, ∃ a f1 w1, call f w = (inl a, f1, w1)) →
  v x = Some p → values s !! p = Some c →
  last c = false → value_valid c = false →
  (∃ xs s', read_n call n x s = (Normal xs, s') ∧
            length xs = n ∧ length (calls s') = n + length (calls s)) ∧
  (for_each call fuel x (It None) s).1 = OutOfFuel.
Proof.
  destruct x as [vx]; simpl. intros Hendless -> Hc Hl Hv. split.
  - by apply (read_n_endless n p c).
  - by apply (for_each_endless fuel p c).
Qed.

End InputFacts.

(** * Facts about the output side *)

Section OutputFacts.

Context {A G E : Type}.
Variable apply : G → A → option (exception E) * G.

Implicit Types (s : @ostate A G) (this : FunctionOutputIterator) (q : loc).

Lemma out_assign_spec q g s a :
  consumers s !! q = Some g →
  out_assign apply (mkOut (Some q)) a s =
    (match (apply g a).1 with
     | None => Normal ()
     | Some e => Thrown e
     end, applied q a (apply g a).2 s).
Proof.
  intros Hq. unfold out_assign, bind; simpl. rewrite Hq.
  by destruct (apply g a) as [[e|] g'].
Qed.

Lemma copy_to_spec xs : ∀ q g g' s,
  consumers s !! q = Some g → accepts apply g xs g' →
  copy_to (E:=E) apply xs (mkOut (Some q)) s =
    (Normal (mkOut (Some q)),
     mkOState (<[q := g']> (consumers s))
              (reverse ((λ x, (q, x)) <$> xs) ++ applications s)).
Proof.
  induction xs as [|x xs IH]; intros q g g' s Hq Hacc; simpl in Hacc.
  - subst g'. simpl. unfold ret. destruct s as [cs apps]; simpl in *.
    by rewrite insert_id.
  - destruct Hacc as (g1 & Happ & Hacc). cbn [copy_to].
    unfold out_postinc, out_deref.
    rewrite (bind_run _ _ _ _ _ (eq_refl : ret (mkOut (Some q)) s = (Normal _, s))).
    cbv beta iota.
    rewrite (bind_run _ _ _ _ _ (eq_refl : ret (mkOut (Some q)) s = (Normal _, s))).
    cbv beta iota.
    rewrite (bind_run _ _ _ _ _ (out_assign_spec _ _ _ x Hq)).
    rewrite Happ; simpl.
    rewrite (IH q g1 g' (applied q x g1 s)) by (try done; apply lookup_insert_eq).
    simpl. rewrite insert_insert_eq, reverse_cons, <- app_assoc. done.
Qed.

(** C5: an assignment through an output iterator made from a consumer
    calls the consumer exactly once, with the assigned value, on the
    shared function object, and returns or throws as the consumer does;
    incrementing and dereferencing return the iterator and leave the
    store, history included, as it is; so copying a list of values to the
    iterator calls the consumer once per value, in order. *)
Theorem assignment_calls_consumer_once this q g s a :
  out_fun this = Some q → consumers s !! q = Some g →
  out_assign apply this a s =
    (match (apply g a).1 with
     | None => Normal ()
     | Some e => Thrown e
     end, applied q a (apply g a).2 s) ∧
  applications (out_assign apply this a s).2 = (q, a) :: applications s ∧
  out_preinc (E:=E) this s = (Normal this, s) ∧
  out_postinc (E:=E) this s = (Normal this, s) ∧
  out_deref (E:=E) this s = (Normal this, s) ∧
  (∀ xs g', accepts apply g xs g' →
     copy_to apply xs this s =
       (Normal this,
        mkOState (<[q := g']> (consumers s))
                 (reverse ((λ x, (q, x)) <$> xs) ++ applications s))).
Proof.
  destruct this as [f]; simpl. intros -> Hq.
  rewrite (out_assign_spec _ _ _ a Hq).
  split; [done|]. split; [done|]. split; [done|]. split; [done|]. split; [done|].
  intros xs g' Hacc. by apply (copy_to_spec xs q g).
Qed.

(** * Further facts about the output side *)

Lemma copy_to_app xs ys this s :
  copy_to (E:=E) apply (xs ++ ys) this s =
    (copy_to apply xs this ;;; copy_to apply ys this) s.
Proof.
  revert s. induction xs as [|x xs IH]; intros s; [done|].
  cbn [copy_to app]. unfold out_postinc, out_deref, ret, bind in *.
  by destruct (out_assign apply this x s) as [[[]| | |] s1].
Qed.

(** X9: a copy of an output iterator feeds the same consumer object:
    copying changes nothing in the store, and values copied through the
    copy followed by values copied through the original reach the
    consumer exactly as the two lists copied in one go through the
    original, whether the consumer returns or throws on the way. *)
Theorem output_copies_share_consumer this xs ys s :
  ∃ this',
    FunctionOutputIterator_copy (E:=E) this s = (Normal this', s) ∧
    out_fun this' = out_fun this ∧
    (copy_to apply xs this' ;;; copy_to apply ys this) s =
      copy_to apply (xs ++ ys) this s.
Proof.
  exists this. destruct this as [f]. split; [done|]. split; [done|].
  by rewrite copy_to_app.
Qed.

(** X10: when the consumer throws on a value, the copy loop stops there:
    the exception leaves the loop, the values before it and the value
    itself have been passed to the consumer, each once and in order, the
    consumer object is in the state in which the failing call left it,
    and the values after it are never passed. *)
Theorem consumer_exception_stops_copy this q g s xs x ys g1 g2 e :
  out_fun this = Some q → consumers s !! q = Some g →
  accepts apply g xs g1 → apply g1 x = (Some e, g2) →
  copy_to apply (xs ++ x :: ys) this s =
    (Thrown e,
     mkOState (<[q := g2]> (consumers s))
              ((q, x) :: reverse ((λ a, (q, a)) <$> xs) ++ applications s)).
Proof.
  destruct this as [f]; simpl. intros -> Hq Hacc Happ.
  rewrite copy_to_app.
  rewrite (bind_run _ _ _ _ _ (copy_to_spec xs q g g1 s Hq Hacc)).
  cbn [copy_to]. unfold out_postinc, out_deref.
  erewrite bind_run by reflexivity. cbv beta iota.
  erewrite bind_run by reflexivity. cbv beta iota.
  erewrite bind_run by (apply (out_assign_spec q g1); apply lookup_insert_eq).
  rewrite Happ. unfold applied; simpl. by rewrite insert_insert_eq.
Qed.

Lemma copy_to_other xs : ∀ q q' s,
  q ≠ q' →
  consumers (copy_to (E:=E) apply xs (mkOut (Some q)) s).2 !! q' = consumers s !! q'.
Proof.
  induction xs as [|x xs IH]; intros q q' s Hne; [done|].
  cbn [copy_to]. unfold out_postinc, out_deref.
  erewrite bind_run by reflexivity. cbv beta iota.
  erewrite bind_run by reflexivity. cbv beta iota.
  destruct (consumers s !! q) as [g|] eqn:Hq.
  - rewrite (bind_run _ _ _ _ _ (out_assign_spec _ _ _ x Hq)).
    destruct (apply g x) as [[e|] g']; simpl.
    + by rewrite lookup_insert_ne.
    + rewrite IH by done. simpl. by rewrite lookup_insert_ne.
  - unfold out_assign, bind; simpl. by rewrite Hq.
Qed.

(** X11: every output iterator made from a consumer gets a function
    object of its own, a copy of the consumer: two iterators made from
    the same consumer are on different objects, what is copied through
    the one never reaches the object of the other, which stays as it was
    made; and assigning through a default-constructed iterator, which
    has no object, is undefined. *)
Theorem output_iterators_are_separate g s xs a :
  ∃ q1 q2 s1 s2,
    make_function_output_iterator (E:=E) g s = (Normal (mkOut (Some q1)), s1) ∧
    make_function_output_iterator (E:=E) g s1 = (Normal (mkOut (Some q2)), s2) ∧
    q1 ≠ q2 ∧
    consumers s2 !! q1 = Some g ∧ consumers s2 !! q2 = Some g ∧
    consumers (copy_to apply xs (mkOut (Some q1)) s2).2 !! q2 = Some g ∧
    (out_assign apply (mkOut None) a s2).1 = Undefined.
Proof.
  set (q1 := fresh (dom (consumers s))).
  set (s1 := mkOState (<[q1 := g]> (consumers s)) (applications s)).
  set (q2 := fresh (dom (consumers s1))).
  set (s2 := mkOState (<[q2 := g]> (consumers s1)) (applications s1)).
  assert (q1 ≠ q2) as Hne.
  { intros Heq. pose proof (is_fresh (dom (consumers s1))) as Hfresh.
    apply Hfresh. fold q2. rewrite <- Heq. apply elem_of_dom.
    eexists. apply lookup_insert_eq. }
  exists q1, q2, s1, s2. split; [done|]. split; [done|]. split; [done|].
  assert (consumers s2 !! q2 = Some g) as H2 by apply lookup_insert_eq.
  split; [simpl; by rewrite lookup_insert_ne, lookup_insert_eq|].
  split; [done|]. split; [|done]. by rewrite copy_to_other.
Qed.

End OutputFacts.

(** * Facts about the pool *)

Section PoolFacts.

Context {A B Err : Type}.
Variable run : A → B + Err.

Implicit Types (p : @pool A B Err) (t : @task A B Err) (h w : nat).

Lemma lookup_set_status h h' st (ts : list (@task A B Err)) :
  set_status h st ts !! h' =
    if decide (h = h') then (λ t, mkTask (argument t) st) <$> ts !! h'
    else ts !! h'.
Proof.
  unfold set_status. destruct (decide (h = h')) as [->|Hne].
  - apply list_lookup_alter_eq.
  - by apply list_lookup_alter_ne.
Qed.

Lemma length_set_status h st (ts : list (@task A B Err)) :
  length (set_status h st ts) = length ts.
Proof. apply length_alter. Qed.

Lemma pool_ok_new n : pool_ok run (new_pool n).
Proof.
  split; simpl.
  - intros h Hh. by apply elem_of_nil in Hh.
  - intros w h Hw. apply lookup_replicate in Hw as [? _]. done.
  - intros h t Ht. by rewrite lookup_nil in Ht.
  - intros h t Ht. by rewrite lookup_nil in Ht.
  - intros h t Ht. by rewrite lookup_nil in Ht.
Qed.

Lemma pool_ok_submit a p : pool_ok run p → pool_ok run (submit a p).2.
Proof.
  intros [Hq Hw Hp Hr Hd]. split; simpl.
  - intros h Hh. rewrite length_app; simpl.
    apply elem_of_app in Hh as [Hh|Hh]; [apply Hq in Hh; lia|].
    apply list_elem_of_singleton in Hh. lia.
  - intros w h Hwh. rewrite length_app. apply Hw in Hwh. lia.
  - intros h t Ht Hst. apply elem_of_app.
    apply lookup_app_Some in Ht as [Ht|[Hlen Ht]]; [left; eauto|right].
    apply list_lookup_singleton_Some in Ht as [Hh _].
    apply list_elem_of_singleton. lia.
  - intros h t Ht Hst.
    apply lookup_app_Some in Ht as [Ht|[Hlen Ht]]; [eauto|].
    apply list_lookup_singleton_Some in Ht as [_ <-]. done.
  - intros h t Ht.
    apply lookup_app_Some in Ht as [Ht|[Hlen Ht]]; [eauto|].
    apply list_lookup_singleton_Some in Ht as [_ <-]. by left.
Qed.

Lemma pool_ok_worker p p' : worker_step run p p' → pool_ok run p → pool_ok run p'.
Proof.
  intros Hstep [Hq Hw Hp Hr Hd].
  destruct Hstep as [p w h q' Hidle Hqueue|p w h t Hbusy Ht]; split; simpl.
  - intros h' Hh'. rewrite length_set_status. apply Hq. rewrite Hqueue. by right.
  - intros w' h' Hw'. rewrite length_set_status.
    apply list_lookup_insert_Some in Hw' as [(_ & [= <-] & _)|[_ Hw']]; [|eauto].
    apply Hq. rewrite Hqueue. by left.
  - intros h' t' Ht' Hst. rewrite lookup_set_status in Ht'.
    destruct (decide (h = h')) as [<-|Hne].
    + destruct (tasks p !! h); [|done]. simpl in Ht'. by injection Ht' as <-.
    + specialize (Hp h' t' Ht' Hst). rewrite Hqueue in Hp.
      apply elem_of_cons in Hp as [?|?]; [congruence|done].
  - intros h' t' Ht' Hst. rewrite lookup_set_status in Ht'.
    destruct (decide (h = h')) as [<-|Hne].
    + exists w. apply list_lookup_insert_eq. by eapply lookup_lt_Some.
    + destruct (Hr h' t' Ht' Hst) as [w' Hw'].
      exists w'. rewrite list_lookup_insert_ne; [done|]. intros ->. congruence.
  - intros h' t' Ht'. rewrite lookup_set_status in Ht'.
    destruct (decide (h = h')) as [<-|Hne]; [|eauto].
    destruct (tasks p !! h); [|done]. simpl in Ht'. injection Ht' as <-. auto.
  - intros h' Hh'. rewrite length_set_status. eauto.
  - intros w' h' Hw'. rewrite length_set_status.
    apply list_lookup_insert_Some in Hw' as [(_ & [=] & _)|[_ Hw']]. eauto.
  - intros h' t' Ht' Hst. rewrite lookup_set_status in Ht'.
    destruct (decide (h = h')) as [<-|Hne]; [|eauto].
    rewrite Ht in Ht'. simpl in Ht'. injection Ht' as <-. simpl in Hst.
    unfold executed in Hst. by destruct (run (argument t)).
  - intros h' t' Ht' Hst. rewrite lookup_set_status in Ht'.
    destruct (decide (h = h')) as [<-|Hne].
    + rewrite Ht in Ht'. simpl in Ht'. injection Ht' as <-. simpl in Hst.
      unfold executed in Hst. by destruct (run (argument t)).
    + destruct (Hr h' t' Ht' Hst) as [w' Hw'].
      exists w'. rewrite list_lookup_insert_ne; [done|]. intros ->. congruence.
  - intros h' t' Ht'. rewrite lookup_set_status in Ht'.
    destruct (decide (h = h')) as [<-|Hne]; [|eauto].
    rewrite Ht in Ht'. simpl in Ht'. injection Ht' as <-. simpl. auto.
Qed.

Lemma pool_ok_step p p' : pool_step run p p' → pool_ok run p → pool_ok run p'.
Proof.
  intros [p0 a|p0 p1 Hw]; [apply pool_ok_submit|by apply pool_ok_worker].
Qed.

Lemma pool_ok_reachable n p : rtc (pool_step run) (new_pool n) p → pool_ok run p.
Proof.
  intros Hrtc. apply rtc_ind_r with (P := pool_ok run) (x := new_pool n) in Hrtc;
    [done|apply pool_ok_new|]. intros ? ? _ ? ?. by eapply pool_ok_step.
Qed.

Lemma worker_step_workers p p' :
  worker_step run p p' → length (workers p') = length (workers p).
Proof. intros [p0 w h q' _ _|p0 w h t _ _]; simpl; apply length_insert. Qed.

Lemma pool_step_workers p p' :
  pool_step run p p' → length (workers p') = length (workers p).
Proof. intros [p0 a|p0 p1 Hw]; [done|by apply worker_step_workers]. Qed.

Lemma pool_reachable_workers n p :
  rtc (pool_step run) (new_pool n) p → length (workers p) = n.
Proof.
  intros Hrtc.
  apply rtc_ind_r with (P := λ p, length (workers p) = n) (x := new_pool n) in Hrtc;
    [done|apply length_replicate|].
  intros ? ? _ Hstep <-. by apply pool_step_workers.
Qed.

(** A Task keeps the argument it was submitted with. *)
Lemma worker_step_argument p p' h t :
  worker_step run p p' → tasks p !! h = Some t →
  ∃ t', tasks p' !! h = Some t' ∧ argument t' = argument t.
Proof.
  intros [p0 w h0 q' _ _|p0 w h0 t0 _ _] Ht; simpl; rewrite lookup_set_status;
    (destruct (decide (h0 = h)) as [->|Hne]; [rewrite Ht; simpl|]); eauto.
Qed.

Lemma submit_lookup a p h t :
  tasks p !! h = Some t → tasks (submit a p).2 !! h = Some t.
Proof. intros Ht. simpl. by apply lookup_app_l_Some. Qed.

Lemma get_executed p h t :
  pool_ok run p → tasks p !! h = Some t →
  get p h = None ∨ get p h = Some (run (argument t)).
Proof.
  intros Hok Ht. unfold get. rewrite Ht.
  destruct (ok_done _ _ Hok h t Ht) as [-> | [-> | ->]]; [by left..|].
  right. unfold executed. by destruct (run (argument t)).
Qed.

(** *** The workers finish what was submitted *)

Lemma busy_insert (ws : list (option nat)) w (o o' : option nat) :
  ws !! w = Some o →
  length (filter is_Some (<[w := o']> ws)) + (if o is Some _ then 1 else 0) =
  length (filter is_Some ws) + (if o' is Some _ then 1 else 0).
Proof.
  revert w. induction ws as [|x ws IH]; intros [|w] Hw; simpl in *; try done.
  - injection Hw as ->. rewrite !filter_cons.
    destruct o, o'; simpl;
      repeat (destruct (decide _) as [[? ?]|Hn]; simpl; try done;
              try (exfalso; apply Hn; eauto)); lia.
  - rewrite !filter_cons. specialize (IH w Hw).
    destruct (decide (is_Some x)); simpl; lia.
Qed.

Lemma busy_or_idle (ws : list (option nat)) :
  (∃ w h, ws !! w = Some (Some h)) ∨ (∀ w o, ws !! w = Some o → o = None).
Proof.
  induction ws as [|[h|] ws IH].
  - right. intros w o Hw. by rewrite lookup_nil in Hw.
  - left. by exists 0, h.
  - destruct IH as [(w & h & Hw)|Hall]; [left; by exists (S w), h|right].
    intros [|w] o Hw; simpl in Hw; [by injection Hw as <-|eauto].
Qed.

(** What the workers still have to do: two turns for a queued Task, one
    for a Task a worker holds. *)
Lemma pool_progress p :
  pool_ok run p → 0 < length (workers p) →
  (∃ p', worker_step run p p' ∧
         S (2 * length (queue p') + length (filter is_Some (workers p')))
           = 2 * length (queue p) + length (filter is_Some (workers p))) ∨
  (queue p = [] ∧ ∀ w o, workers p !! w = Some o → o = None).
Proof.
  intros Hok Hn.
  destruct (busy_or_idle (workers p)) as [(w & h & Hw)|Hidle].
  - left. destruct (lookup_lt_is_Some_2 (tasks p) h) as [t Ht];
      [by eapply ok_workers|].
    eexists. split; [by eapply worker_execute|]. simpl.
    pose proof (busy_insert _ _ _ None Hw) as Hb. simpl in Hb. lia.
  - destruct (queue p) as [|h q'] eqn:Hqueue; [by right|left].
    destruct (lookup_lt_is_Some_2 (workers p) 0 Hn) as [o Ho].
    pose proof (Hidle 0 o Ho) as ->.
    eexists. split; [by eapply worker_dequeue|]. simpl.
    pose proof (busy_insert _ _ _ (Some h) Ho) as Hb. simpl in Hb. lia.
Qed.

(** With a worker thread in the pool, the workers by themselves empty
    the queue and finish every Task. *)
Lemma pool_drains m : ∀ p,
  2 * length (queue p) + length (filter is_Some (workers p)) ≤ m →
  pool_ok run p → 0 < length (workers p) →
  ∃ p', rtc (worker_step run) p p' ∧ pool_ok run p' ∧
        length (workers p') = length (workers p) ∧
        queue p' = [] ∧ (∀ w o, workers p' !! w = Some o → o = None) ∧
        ∀ h t, tasks p !! h = Some t →
               ∃ t', tasks p' !! h = Some t' ∧ argument t' = argument t.
Proof.
  assert (∀ p, queue p = [] →
                (∀ w o, workers p !! w = Some o → o = None) →
                pool_ok run p →
                ∃ p', rtc (worker_step run) p p' ∧ pool_ok run p' ∧
                      length (workers p') = length (workers p) ∧
                      queue p' = [] ∧
                      (∀ w o, workers p' !! w = Some o → o = None) ∧
                      ∀ h t, tasks p !! h = Some t →
                        ∃ t', tasks p' !! h = Some t' ∧ argument t' = argument t)
    as Hdone.
  { intros p Hq Hidle Hok. exists p. split; [done|]. split; [done|].
    split; [done|]. split; [done|]. split; [done|]. eauto. }
  induction m as [|m IH]; intros p Hm Hok Hn;
    (destruct (pool_progress p Hok Hn) as [(p1 & Hstep & Hless)|[Hq Hidle]];
     [|by apply Hdone]); [lia|].
  pose proof (worker_step_workers _ _ Hstep) as Hlen.
  destruct (IH p1) as (p' & Hrun & Hok' & Hlen' & Hq' & Hidle' & Hkeep);
    [lia|by eapply pool_ok_worker|by rewrite Hlen|].
  exists p'. split; [by eapply rtc_l|]. split; [done|].
  split; [by rewrite Hlen', Hlen|]. split; [done|]. split; [done|].
  intros h t Ht.
  destruct (worker_step_argument _ _ _ _ Hstep Ht) as (t1 & Ht1 & Ha1).
  destruct (Hkeep h t1 Ht1) as (t' & Ht' & Ha'). exists t'. split; [done|congruence].
Qed.

(** C7: in every state a pool can reach, the number of worker threads is
    the number it was constructed with; a Task whose callable raises [e]
    on its argument is Pending, Running or Failed with [e], never
    Completed, and [get] on its handle blocks or re-raises [e]; the
    worker holding such a Task can take its turn, after which [get]
    re-raises [e], the worker is idle again and the pool has as many
    workers and is consistent as before; and in a pool with a worker
    thread the workers by themselves reach a state with as many workers
    in which [get] on the handle re-raises [e] and [get] on every other
    handle gives the outcome of the callable on that Task's argument: the
    failure neither ends a worker nor stalls the other Tasks. *)
Theorem failed_task_reraises n p h t e :
  rtc (pool_step run) (new_pool n) p →
  tasks p !! h = Some t → run (argument t) = inr e →
  length (workers p) = n ∧
  (status t = Pending ∨ status t = Running ∨ status t = Failed e) ∧
  (get p h = None ∨ get p h = Some (inr e)) ∧
  (∀ w, workers p !! w = Some (Some h) →
     ∃ p', worker_step run p p' ∧
           get p' h = Some (inr e) ∧
           workers p' !! w = Some None ∧
           length (workers p') = n ∧
           pool_ok run p') ∧
  (0 < n →
     ∃ p', rtc (worker_step run) p p' ∧
           length (workers p') = n ∧
           get p' h = Some (inr e) ∧
           ∀ h' t', tasks p !! h' = Some t' →
                    get p' h' = Some (run (argument t'))).
Proof.
  intros Hreach Ht He.
  pose proof (pool_ok_reachable _ _ Hreach) as Hok.
  pose proof (pool_reachable_workers _ _ Hreach) as Hn.
  split; [done|]. split.
  { destruct (ok_done _ _ Hok h t Ht) as [?|[?|Hst]]; [auto..|].
    right; right. rewrite Hst. unfold executed. by rewrite He. }
  split.
  { destruct (get_executed p h t Hok Ht) as [?|Hg]; [by left|right]. by rewrite Hg, He. }
  split.
  { intros w Hw.
    pose proof (worker_execute run p w h t Hw Ht) as Hstep.
    eexists. split; [exact Hstep|].
    split.
    { unfold get; simpl. rewrite lookup_set_status, decide_True, Ht by done; simpl.
      unfold executed. by rewrite He. }
    split.
    { simpl. apply list_lookup_insert_eq. by eapply lookup_lt_Some. }
    split.
    { simpl. by rewrite length_insert. }
    by eapply pool_ok_worker. }
  intros Hpos.
  destruct (pool_drains _ p (le_n _) Hok) as (p' & Hrun & Hok' & Hlen & Hq & Hidle & Hkeep);
    [by rewrite Hn|].
  assert (∀ h' t', tasks p !! h' = Some t' →
                   get p' h' = Some (run (argument t'))) as Hall.
  { intros h' t' Ht'. destruct (Hkeep h' t' Ht') as (t1 & Ht1 & <-).
    unfold get. rewrite Ht1.
    destruct (ok_done _ _ Hok' h' t1 Ht1) as [Hst|[Hst|Hst]].
    - pose proof (ok_pending _ _ Hok' h' t1 Ht1 Hst) as Hin.
      rewrite Hq in Hin. by apply elem_of_nil in Hin.
    - destruct (ok_running _ _ Hok' h' t1 Ht1 Hst) as [w Hw].
      by pose proof (Hidle w _ Hw).
    - rewrite Hst. unfold executed. by destruct (run (argument t1)). }
  exists p'. split; [done|]. split; [by rewrite Hlen|].
  split; [|done]. by rewrite (Hall h t Ht), He.
Qed.

(** *** Bulk submission *)

Implicit Types (σ : @pool A B Err * @bulk A B Err).

Lemma submit_all_spec xs : ∀ p,
  Forall2 (λ h a, ∃ t, tasks (submit_all xs p).2 !! h = Some t ∧ argument t = a)
          (submit_all xs p).1 xs ∧
  (∀ h t, tasks p !! h = Some t → tasks (submit_all xs p).2 !! h = Some t) ∧
  (pool_ok run p → pool_ok run (submit_all xs p).2) ∧
  queue (submit_all xs p).2 = queue p ++ (submit_all xs p).1 ∧
  workers (submit_all xs p).2 = workers p.
Proof.
  induction xs as [|a xs IH]; intros p.
  - simpl. rewrite app_nil_r. split; [constructor|]. auto.
  - destruct (IH (submit a p).2) as (Hall & Hkeep & Hok & Hqueue & Hworkers).
    cbn [submit_all fst snd].
    split; [constructor; [|exact Hall]|].
    { eexists. split; [apply Hkeep; simpl; by apply list_lookup_middle|done]. }
    split; [intros h t Ht; by apply Hkeep, submit_lookup|].
    split; [intros Hp; by apply Hok, pool_ok_submit|].
    split; [|done]. rewrite Hqueue. simpl. by rewrite <- app_assoc.
Qed.

Lemma bulk_inv_init wm xs p :
  0 < wm → pool_ok run p → bulk_inv run xs (submit_range wm xs p).
Proof.
  intros Hwm Hok. unfold submit_range.
  destruct (submit_all_spec (take wm xs) p) as (Hall & _ & Hok' & _ & _).
  destruct (submit_all (take wm xs) p) as [hs p'] eqn:Hsub. simpl in *.
  split; [simpl; by apply Hok'|]. split.
  - exists (take wm xs). split; [done|]. simpl.
    by rewrite <- fmap_app, take_drop.
  - simpl. intros ->. apply Forall2_nil_inv_l in Hall.
    destruct xs as [|a xs]; [by rewrite drop_nil|].
    destruct wm; [lia|done].
Qed.

Lemma bulk_inv_step xs σ σ' :
  bulk_step run σ σ' → bulk_inv run xs σ → bulk_inv run xs σ'.
Proof.
  intros Hstep (Hok & (args & Hall & Hxs) & Hfed).
  destruct Hstep as [p p' b Hw|p b h hs r Hfl Hget]; simpl in *.
  - split; [by eapply pool_ok_worker|]. split; [|done].
    exists args. split; [|done].
    eapply Forall2_impl; [exact Hall|]. intros h a (t & Ht & <-).
    by eapply worker_step_argument.
  - rewrite Hfl in Hall. apply Forall2_cons_inv_l in Hall
      as (a & args' & (t & Ht & <-) & Hall & ->).
    assert (r = run (argument t)) as ->.
    { destruct (get_executed p h t Hok Ht) as [Hg|Hg]; congruence. }
    unfold drained. destruct (inputs b) as [|a rest] eqn:Hin; simpl.
    + split; [done|]. split; [|done].
      exists args'. split; [done|]. simpl. rewrite Hxs. simpl.
      by rewrite <- !app_assoc.
    + split; [by apply pool_ok_submit|]. split.
      * exists (args' ++ [a]). split.
        -- apply Forall2_app.
           ++ eapply Forall2_impl; [exact Hall|]. intros h' a' (t' & Ht' & <-).
              exists t'. split; [by apply lookup_app_l_Some|done].
           ++ constructor; [|done]. eexists.
              split; [by apply list_lookup_middle|done].
        -- simpl. rewrite Hxs. simpl. rewrite fmap_app. simpl.
           by rewrite <- !app_assoc.
      * intros Hnil. by apply app_nil in Hnil as [_ ?].
Qed.

Lemma bulk_inv_nsteps xs k σ σ' :
  nsteps (bulk_step run) k σ σ' → bulk_inv run xs σ → bulk_inv run xs σ'.
Proof. induction 1; eauto using bulk_inv_step. Qed.

(** What was yielded is the outcomes of the first inputs, in order. *)
Lemma bulk_inv_prefix xs σ :
  bulk_inv run xs σ → yielded σ.2 `prefix_of` (run <$> xs).
Proof. intros (_ & (args & _ & Hxs) & _). rewrite Hxs. by eexists. Qed.

Lemma bulk_inv_done xs σ :
  bulk_inv run xs σ → in_flight σ.2 = [] → yielded σ.2 = run <$> xs.
Proof.
  intros (_ & (args & Hall & Hxs) & Hfed) Hnil.
  rewrite Hxs, (Hfed Hnil). rewrite Hnil in Hall.
  apply Forall2_nil_inv_l in Hall as ->. simpl. by rewrite app_nil_r.
Qed.

(** *** Every schedule is finite and ends with all results yielded *)

Lemma work_left_step σ σ' :
  bulk_step run σ σ' → S (work_left σ') = work_left σ.
Proof.
  intros [p p' b Hw|p b h hs r Hfl Hget]; unfold work_left; simpl.
  - destruct Hw as [p w h q' Hidle Hqueue|p w h t Hbusy Ht]; simpl.
    + pose proof (busy_insert _ _ _ (Some h) Hidle) as Hb. simpl in Hb.
      rewrite Hqueue; simpl. lia.
    + pose proof (busy_insert _ _ _ None Hbusy) as Hb. simpl in Hb. lia.
  - unfold drained. rewrite Hfl.
    destruct (inputs b) as [|a rest]; simpl; rewrite ?length_app; simpl; lia.
Qed.

Lemma work_left_nsteps k σ σ' :
  nsteps (bulk_step run) k σ σ' → k + work_left σ' = work_left σ.
Proof.
  induction 1 as [|k σ1 σ2 σ3 H12 _ IH]; [done|].
  apply work_left_step in H12. lia.
Qed.

Lemma idle_or_busy (ws : list (option nat)) :
  (∃ w, ws !! w = Some None) ∨ (∀ w o, ws !! w = Some o → is_Some o).
Proof.
  induction ws as [|[h|] ws IH].
  - right. intros w o Hw. by rewrite lookup_nil in Hw.
  - destruct IH as [[w Hw]|Hall]; [left; by exists (S w)|right].
    intros [|w] o Hw; simpl in Hw; [injection Hw as <-; eauto|eauto].
  - left. by exists 0.
Qed.

(** While a Task is in flight, some thread can make a step. *)
Lemma bulk_progress xs σ :
  0 < length (workers σ.1) → bulk_inv run xs σ → in_flight σ.2 ≠ [] →
  ∃ σ', bulk_step run σ σ'.
Proof.
  destruct σ as [p b]; simpl. intros Hn (Hok & (args & Hall & _) & _) Hfl.
  simpl in *.
  destruct (in_flight b) as [|h hs] eqn:Hin; [done|].
  apply Forall2_cons_inv_l in Hall as (a & args' & (t & Ht & _) & _ & _).
  assert (∀ w h', workers p !! w = Some (Some h') → ∃ σ', bulk_step run (p, b) σ')
    as Hexec.
  { intros w h' Hw.
    destruct (lookup_lt_is_Some_2 (tasks p) h') as [t' Ht'];
      [by eapply ok_workers|].
    eexists. apply bulk_work. by eapply worker_execute. }
  destruct (status t) as [| |r|e] eqn:Hst.
  - pose proof (ok_pending _ _ Hok h t Ht Hst) as Hq.
    destruct (queue p) as [|h0 q'] eqn:Hqueue; [by apply elem_of_nil in Hq|].
    destruct (idle_or_busy (workers p)) as [[w Hw]|Hbusy].
    + eexists. apply bulk_work. by eapply worker_dequeue.
    + destruct (lookup_lt_is_Some_2 (workers p) 0 Hn) as [o Ho].
      destruct (Hbusy 0 o Ho) as [h' ->]. by eapply Hexec.
  - destruct (ok_running _ _ Hok h t Ht Hst) as [w Hw]. by eapply Hexec.
  - eexists. eapply bulk_yield; [done|]. unfold get. by rewrite Ht, Hst.
  - eexists. eapply bulk_yield; [done|]. unfold get. by rewrite Ht, Hst.
Qed.

(** The iterating thread waits for the oldest Task in flight: as long as
    [get] on its handle blocks, nothing is yielded, whatever has become
    of the Tasks submitted after it. *)
Lemma bulk_waits_for_oldest p b h hs :
  in_flight b = h :: hs → get p h = None →
  ∀ σ', bulk_step run (p, b) σ' → σ'.2 = b.
Proof.
  intros Hfl Hget σ' Hstep.
  inversion Hstep as [p1 p2 b1 Hw|p1 b1 h1 hs1 r1 Hfl1 Hget1]; subst; [done|].
  rewrite Hfl in Hfl1. injection Hfl1 as <- <-. congruence.
Qed.

(** With the queue empty, every worker idle and nothing in flight, no
    step is left. *)
Lemma bulk_finished p b :
  queue p = [] → (∀ w o, workers p !! w = Some o → o = None) →
  in_flight b = [] →
  ∀ σ', ¬ bulk_step run (p, b) σ'.
Proof.
  intros Hq Hidle Hfl σ' Hstep.
  inversion Hstep as [p1 p2 b1 Hw|p1 b1 h hs r Hfl1 Hget]; subst.
  - inversion Hw as [p1 w h q' Hw1 Hq1|p1 w h t Hw1 Ht]; subst.
    + congruence.
    + by pose proof (Hidle w _ Hw1).
  - congruence.
Qed.

(** C6: for every schedule of the worker threads and of the thread
    that iterates the output sequence of [submit_range] on the inputs
    [xs], what has been yielded is at every moment the outcomes of the
    callable on the first inputs, in the order of the inputs; every step
    uses up one unit of the work left, so every schedule is finite; as
    long as a result is missing some thread can make a step; and when no
    step is left the output sequence has yielded the outcome for every
    input, in this order: the values [f x] when the callable is a
    function [f] that does not raise. *)
Theorem submit_range_yields_in_submission_order n p0 wm xs k σ :
  0 < n → 0 < wm →
  rtc (pool_step run) (new_pool n) p0 →
  nsteps (bulk_step run) k (submit_range wm xs p0) σ →
  yielded σ.2 `prefix_of` (run <$> xs) ∧
  k + work_left σ = work_left (submit_range wm xs p0) ∧
  (yielded σ.2 ≠ run <$> xs → ∃ σ', bulk_step run σ σ') ∧
  ((∀ σ', ¬ bulk_step run σ σ') →
     yielded σ.2 = run <$> xs ∧
     ∀ f : A → B, (∀ a, run a = inl (f a)) → yielded σ.2 = inl ∘ f <$> xs).
Proof.
  intros Hn Hwm Hreach Hsteps.
  pose proof (pool_ok_reachable _ _ Hreach) as Hok0.
  pose proof (bulk_inv_nsteps xs _ _ _ Hsteps (bulk_inv_init wm xs p0 Hwm Hok0))
    as Hinv.
  assert (length (workers σ.1) = n) as Hworkers.
  { assert (length (workers (submit_range wm xs p0).1) = n) as H0.
    { unfold submit_range.
      destruct (submit_all_spec (take wm xs) p0) as (_ & _ & _ & _ & Hw).
      destruct (submit_all (take wm xs) p0); simpl in *.
      rewrite Hw. by eapply pool_reachable_workers. }
    clear Hinv. induction Hsteps as [|k σ1 σ2 σ3 H12 _ IH]; [done|].
    apply IH. rewrite <- H0.
    destruct H12 as [p p' b Hw|p b h hs r Hfl Hget]; simpl.
    - by apply worker_step_workers.
    - unfold drained. by destruct (inputs b). }
  assert (yielded σ.2 ≠ run <$> xs → ∃ σ', bulk_step run σ σ') as Hprogress.
  { intros Hne. apply (bulk_progress xs); [lia|done|].
    intros Hnil. by apply Hne, (bulk_inv_done xs). }
  split; [by apply bulk_inv_prefix|].
  split; [by apply work_left_nsteps|].
  split; [done|].
  intros Hstuck.
  assert (yielded σ.2 = run <$> xs) as Hall.
  { destruct (decide (in_flight σ.2 = [])) as [Hnil|Hfl];
      [by apply (bulk_inv_done xs)|].
    destruct (bulk_progress xs σ) as [σ' Hstep]; [lia|done|done|].
    by destruct (Hstuck σ'). }
  split; [done|]. intros f Hf. rewrite Hall.
  apply list_fmap_ext. intros _ a _. apply Hf.
Qed.

End PoolFacts.

(** * The facts at work on the samples *)

Lemma copy_shares_state_witness :
  ∃ x' s1 s2,
    FunctionInputIterator_copy it1 (store_upto 2) = (Normal x', store_upto 2) ∧
    operator_deref upto x' (store_upto 2) = (Normal 0, s1) ∧
    operator_deref upto it1 s1 = (Normal 1, s2).
Proof.
  destruct (copy_shares_state upto it1 (store_upto 2))
    as (x' & Hcopy & _ & _ & _ & Hshared).
  destruct (Hshared 1%positive (Values_of (0, 2))) as [Hvalues _];
    [reflexivity..|].
  destruct (Hvalues 0 1 (1, 2) (2, 2) () ()) as [(s1 & s2 & H1 & H2 & _) _];
    [reflexivity..|].
  exists x', s1, s2. split; [exact Hcopy|]. split; [exact H1|exact H2].
Defined.

Lemma end_signal_is_final_witness :
  let os := [OpRangeOf (0, 1); OpBegin range1; OpDeref it1; OpDeref it1] in
  let s1 := exec_all upto os (empty_state ()) in
  history_ok (@empty_state nat (nat * nat) Empty_set unit ()) ∧
  end_signals 1%positive s1 = 1 ∧
  ∀ os', calls_of 1%positive (exec_all upto os' s1) = calls_of 1%positive s1.
Proof.
  intros os s1.
  assert (history_ok (@empty_state nat (nat * nat) Empty_set unit ())) as Hok.
  { intros p. unfold end_signals, calls_of; simpl.
    split; [lia|]. split; [lia|]. intros c Hc. rewrite lookup_empty in Hc. discriminate. }
  split; [exact Hok|]. split; [reflexivity|].
  destruct (end_signal_is_final upto os (empty_state ()) 1%positive Hok)
    as (_ & _ & Hfinal).
  intros os'. apply (Hfinal ltac:(vm_compute; lia) os').
Defined.

Lemma lookahead_once_per_position_witness :
  values (store_upto 2) !! 1%positive = Some (Values_of (0, 2)) ∧
  calls (operator_eq upto it1 it_end (store_upto 2)).2 = [(1%positive, inl 0)].
Proof.
  split; [reflexivity|].
  apply (lookahead_once_per_position upto it1 it_end 1%positive
           (Values_of (0, 2)) (store_upto 2) 3); reflexivity.
Defined.

Lemma range_for_yields_produced_witness :
  produces upto (0, 3) () [0; 1; 2] (3, 3) () ∧
  ∃ p s', range_for upto 4 range1 (range_store 3) = (Normal [0; 1; 2], s') ∧
          for_each upto 4 (mkIter (Some p)) (mkIter None) s' = (Normal [], s').
Proof.
  assert (produces upto (0, 3) () [0; 1; 2] (3, 3) ()) as Hprod.
  { simpl. exists (1, 3), (). split; [reflexivity|].
    exists (2, 3), (). split; [reflexivity|].
    exists (3, 3), (). split; reflexivity. }
  split; [exact Hprod|].
  destruct (range_for_yields_produced upto range1 1%positive (0, 3) [0; 1; 2] (3, 3)
              () (range_store 3) 4) as (p & s' & _ & Hrun & _ & Hagain);
    [reflexivity|reflexivity|exact Hprod|simpl; lia|].
  exists p, s'. split; [exact Hrun|exact Hagain].
Defined.

Lemma operator_eq_compares_end_status_witness :
  live (store_upto 2) it1 ∧ live (store_upto 0) it1 ∧ live (store_upto 2) it_end ∧
  live store_counters it1 ∧ live store_counters it2 ∧
  (∀ n, operator_eq_fuel upto (S (S n)) it1 it_end (store_upto 2) =
        operator_eq upto it1 it_end (store_upto 2)) ∧
  (operator_eq upto it1 it_end (store_upto 2)).1 = Normal false ∧
  (operator_eq upto it1 it_end (store_upto 0)).1 = Normal true ∧
  (operator_eq upto it_end it1 (store_upto 2)).1 = Normal false ∧
  (operator_eq counter it1 it2 store_counters).1 = Normal true.
Proof.
  assert (live (store_upto 2) it1) as Hx by (exists (Values_of (0, 2)); reflexivity).
  assert (live (store_upto 0) it1) as Hx0 by (exists (Values_of (0, 0)); reflexivity).
  assert (live (store_upto 2) it_end) as Hy by exact I.
  assert (live store_counters it1) as Hc1 by (exists (Values_of true); reflexivity).
  assert (live store_counters it2) as Hc2 by (exists (Values_of false); reflexivity).
  split; [exact Hx|]. split; [exact Hx0|]. split; [exact Hy|].
  split; [exact Hc1|]. split; [exact Hc2|].
  destruct (operator_eq_compares_end_status upto it1 it_end (store_upto 2) Hx Hy)
    as (Hfuel & _ & Hread & _ & Hout).
  destruct (operator_eq_compares_end_status upto it1 it_end (store_upto 0) Hx0 Hy)
    as (_ & _ & Hread0 & _).
  destruct (operator_eq_compares_end_status counter it1 it2 store_counters Hc1 Hc2)
    as (_ & _ & _ & Hboth & _).
  pose proof (Hread 1%positive (Values_of (0, 2)) eq_refl eq_refl eq_refl) as Hr.
  pose proof (Hread0 1%positive (Values_of (0, 0)) eq_refl eq_refl eq_refl) as Hr0.
  split; [exact Hfuel|]. split; [exact Hr|]. split; [exact Hr0|].
  split.
  - destruct Hout as [(e & _)|(b & Hb & _ & _ & _ & _ & _ & _ & Hsym)];
      [destruct e|].
    destruct (Hsym (or_intror (or_introl eq_refl))) as (t & Ht & _).
    rewrite Ht. rewrite Hb in Hr. exact Hr.
  - refine (proj1 (Hboth 1%positive 2%positive (Values_of true) (Values_of false)
                     0 1 true false 1 2 eq_refl eq_refl _ eq_refl eq_refl
                     eq_refl eq_refl eq_refl eq_refl)).
    discriminate.
Defined.

(** C8 as stated fails on the symmetry: of two producers that share a
    variable, the strict one signals the end once the variable is 1.
    With the strict one on the left it is called first and both sides
    have a value; with the lenient one on the left the strict one is
    called second and is at the end. *)
Lemma operator_eq_not_symmetric_counterexample :
  live store_counters it1 ∧ live store_counters it2 ∧
  (operator_eq counter it1 it2 store_counters).1 = Normal true ∧
  (operator_eq counter it2 it1 store_counters).1 = Normal false ∧
  (operator_eq counter it1 it2 store_counters).1
    ≠ (operator_eq counter it2 it1 store_counters).1.
Proof.
  split; [exists (Values_of true); reflexivity|].
  split; [exists (Values_of false); reflexivity|].
  split; [reflexivity|]. split; [reflexivity|]. discriminate.
Defined.

(** C9 as stated fails: after [it == end] has looked ahead the only value
    of the producer, the next call of the producer signals the end, and
    yet dereferencing returns that value. *)
Lemma deref_returns_cached_counterexample :
  let s := exec_all upto [OpRangeOf (0, 1); OpBegin range1; OpEq it1 it_end]
             (empty_state ()) in
  ∃ c, values s !! 1%positive = Some c ∧
       (upto (fun_ c) (world s)).1.1 = inr out_of_range ∧
       (operator_deref upto it1 s).1 = Normal 0 ∧
       (operator_deref upto it1 s).1 ≠ Thrown out_of_range.
Proof.
  eexists. split; [reflexivity|]. split; [reflexivity|]. split; [reflexivity|].
  discriminate.
Defined.

Lemma deref_at_end_throws_witness :
  values (store_upto 0) !! 1%positive = Some (Values_of (0, 0)) ∧
  (operator_deref upto it1 (store_upto 0)).1 = Thrown out_of_range.
Proof.
  split; [reflexivity|].
  destruct (deref_at_end_throws upto it1 1%positive (Values_of (0, 0)) (store_upto 0))
    as [Hthrow _]; [reflexivity..|].
  apply Hthrow. right. split; reflexivity.
Defined.

Lemma begin_twice_independent_witness :
  functions (range_store 2) !! 1%positive = Some (0, 2) ∧
  value_semantics upto ∧
  ∃ p1 s1, begin range1 (range_store 2) = (Normal (mkIter (Some p1)), s1) ∧
  ∃ p2 s2, begin range1 (exec_all upto [OpDeref (mkIter (Some p1))] s1)
             = (Normal (mkIter (Some p2)), s2) ∧
           p2 ≠ p1 ∧ values s2 !! p2 = Some (Values_of (0, 2)) ∧
           (operator_deref upto (mkIter (Some p2))
              (exec_all upto [OpDeref (mkIter (Some p1))] s2)).1 = Normal 0.
Proof.
  assert (value_semantics upto) as Hvs.
  { intros f [] []. unfold upto. destruct (f.1 <? f.2); reflexivity. }
  split; [reflexivity|]. split; [exact Hvs|].
  destruct (begin_twice_independent upto range1 1%positive (0, 2) (range_store 2)
              [OpDeref it1]) as (p1 & s1 & Hb1 & _ & _ & _ & Hrest);
    [reflexivity..|].
  assert (p1 = 1%positive) as -> by (by injection Hb1 as <- _).
  destruct Hrest as (p2 & s2 & Hb2 & Hne & _ & Hc2 & _ & _ & _ & Hfirst & _).
  exists 1%positive, s1. split; [exact Hb1|].
  exists p2, s2. split; [exact Hb2|]. split; [exact Hne|]. split; [exact Hc2|].
  destruct (Hfirst [OpDeref it1]) as (_ & _ & Hvalue).
  { intros o Ho Ht. apply list_elem_of_singleton in Ho. subst o.
    simpl in Ht. injection Ht as Ht. apply Hne. symmetry. exact Ht. }
  exact (Hvalue Hvs () 0 (1, 2) () eq_refl).
Defined.

(** C10 as stated fails: with a producer that counts in a variable it
    captured by reference, the two iterators are on different objects
    and yet share the variable.  The second iterator dereferences to 0
    when nothing was consumed through the first; after a value was
    consumed through the first it dereferences to 1, and the first one
    is then at the end of the two values. *)
Lemma begin_twice_shares_by_reference_counterexample :
  ∃ b1 b2 s1 s2,
    begin range1 range_store_by_ref = (Normal b1, s1) ∧
    begin range1 s1 = (Normal b2, s2) ∧
    v b1 ≠ v b2 ∧
    (operator_deref upto_by_ref b2 s2).1 = Normal 0 ∧
    ∃ s3 s4,
      operator_deref upto_by_ref b1 s2 = (Normal 0, s3) ∧
      operator_deref upto_by_ref b2 s3 = (Normal 1, s4) ∧
      (operator_deref upto_by_ref b2 s3).1 ≠ (operator_deref upto_by_ref b2 s2).1 ∧
      (operator_deref upto_by_ref b1 s4).1 = Thrown out_of_range.
Proof.
  do 4 eexists. split; [reflexivity|]. split; [reflexivity|].
  split; [discriminate|]. split; [reflexivity|].
  do 2 eexists. split; [reflexivity|]. split; [reflexivity|].
  split; [discriminate|reflexivity].
Defined.

Lemma assignment_calls_consumer_once_witness :
  consumers sink_store !! 1%positive = Some 0 ∧
  applications (out_assign add_up out1 5 sink_store).2 = [(1%positive, 5)] ∧
  copy_to add_up [1; 2; 3] out1 sink_store =
    (Normal out1,
     mkOState (<[1%positive := 6]> (consumers sink_store))
              [(1%positive, 3); (1%positive, 2); (1%positive, 1)]).
Proof.
  split; [reflexivity|].
  destruct (assignment_calls_consumer_once add_up out1 1%positive 0 sink_store 5)
    as (_ & Happs & _ & _ & _ & Hcopy); [reflexivity..|].
  split; [exact Happs|].
  apply (Hcopy [1; 2; 3] 6). simpl.
  exists 1. split; [reflexivity|].
  exists 3. split; [reflexivity|].
  exists 6. split; reflexivity.
Defined.

Lemma submit_range_yields_in_submission_order_witness :
  let σ0 := submit_range 2 [4; 5; 6] (new_pool 2)
            : @pool nat nat unit * @bulk nat nat unit in
  let σ3 := (mkPool [mkTask 4 Running; mkTask 5 (Completed 25)] []
                    [Some 0; None],
             mkBulk [6] [0; 1] []) in
  let σ9 := (mkPool [mkTask 4 (Completed 16); mkTask 5 (Completed 25);
                     mkTask 6 (Completed 36)] [] [None; None],
             mkBulk [] [] [inl 16; inl 25; inl 36]) in
  nsteps (bulk_step square) 3 σ0 σ3 ∧
  get σ3.1 0 = None ∧ get σ3.1 1 = Some (inl 25) ∧
  (∀ σ', bulk_step square σ3 σ' → yielded σ'.2 = []) ∧
  nsteps (bulk_step square) 6 σ3 σ9 ∧
  (∀ σ', ¬ bulk_step square σ9 σ') ∧
  yielded σ9.2 = square <$> [4; 5; 6] ∧
  yielded σ9.2 = inl ∘ (λ x, x * x) <$> [4; 5; 6].
Proof.
  intros σ0 σ3 σ9.
  assert (nsteps (bulk_step square) 3 σ0 σ3) as Hrun1.
  { eapply nsteps_l.
    { apply bulk_work.
      apply (worker_dequeue square _ 0 0 [1]); reflexivity. }
    eapply nsteps_l.
    { apply bulk_work.
      apply (worker_dequeue square _ 1 1 []); reflexivity. }
    eapply nsteps_l.
    { apply bulk_work.
      apply (worker_execute square _ 1 1 (mkTask 5 Running)); reflexivity. }
    apply nsteps_O. }
  assert (nsteps (bulk_step square) 6 σ3 σ9) as Hrun2.
  { eapply nsteps_l.
    { apply bulk_work.
      apply (worker_execute square _ 0 0 (mkTask 4 Running)); reflexivity. }
    eapply nsteps_l.
    { apply (bulk_yield square _ _ 0 [1] (inl 16)); reflexivity. }
    eapply nsteps_l.
    { apply (bulk_yield square _ _ 1 [2] (inl 25)); reflexivity. }
    eapply nsteps_l.
    { apply bulk_work.
      apply (worker_dequeue square _ 1 2 []); reflexivity. }
    eapply nsteps_l.
    { apply bulk_work.
      apply (worker_execute square _ 1 2 (mkTask 6 Running)); reflexivity. }
    eapply nsteps_l.
    { apply (bulk_yield square _ _ 2 [] (inl 36)); reflexivity. }
    apply nsteps_O. }
  pose proof (bulk_waits_for_oldest square σ3.1 σ3.2 0 [1] eq_refl eq_refl)
    as Hwait.
  assert (∀ w o, workers σ9.1 !! w = Some o → o = None) as Hidle.
  { intros [|[|w]] o Hw; simpl in Hw;
      [congruence|congruence|rewrite lookup_nil in Hw; discriminate]. }
  pose proof (bulk_finished square σ9.1 σ9.2 eq_refl Hidle eq_refl) as Hstuck.
  split; [exact Hrun1|]. split; [reflexivity|]. split; [reflexivity|].
  split; [intros σ' Hstep; rewrite (Hwait σ' Hstep); reflexivity|].
  split; [exact Hrun2|]. split; [exact Hstuck|].
  destruct (submit_range_yields_in_submission_order square 2 (new_pool 2) 2
              [4; 5; 6] (3 + 6) σ9) as (_ & _ & _ & Hfinal);
    [lia|lia|apply rtc_refl|exact (nsteps_trans _ _ _ _ _ Hrun1 Hrun2)|].
  destruct (Hfinal Hstuck) as [Hall Hf].
  split; [exact Hall|]. exact (Hf (λ x, x * x) (λ a, eq_refl)).
Defined.

Lemma failed_task_reraises_witness :
  let p := mkPool [mkTask 0 Running; mkTask 4 Pending] [1] [Some 0; None]
           : @pool nat nat unit in
  rtc (pool_step reciprocal) (new_pool 2) p ∧
  reciprocal 0 = inr () ∧
  workers p !! 0 = Some (Some 0) ∧
  length (workers p) = 2 ∧
  get p 0 = None ∧
  (∃ p', worker_step reciprocal p p' ∧
         get p' 0 = Some (inr ()) ∧
         workers p' !! 0 = Some None ∧
         length (workers p') = 2) ∧
  (∃ p', rtc (worker_step reciprocal) p p' ∧
         length (workers p') = 2 ∧
         get p' 0 = Some (inr ()) ∧
         get p' 1 = Some (inl 25)).
Proof.
  intros p.
  assert (rtc (pool_step reciprocal) (new_pool 2) p) as Hreach.
  { eapply rtc_l; [apply (pool_submit reciprocal (new_pool 2) 0)|].
    eapply rtc_l; [apply (pool_submit reciprocal _ 4)|].
    apply rtc_once. apply pool_work.
    apply (worker_dequeue reciprocal
             (mkPool [mkTask 0 Pending; mkTask 4 Pending] [0; 1] [None; None])
             0 0 [1]); reflexivity. }
  split; [exact Hreach|]. split; [reflexivity|]. split; [reflexivity|].
  destruct (failed_task_reraises reciprocal 2 p 0 (mkTask 0 Running) ()
              Hreach eq_refl eq_refl) as (Hn & _ & _ & Hturn & Hdrain).
  split; [exact Hn|]. split; [reflexivity|]. split.
  - destruct (Hturn 0 eq_refl) as (p' & Hstep & Hget & Hidle & Hlen & _).
    exists p'. split; [exact Hstep|]. split; [exact Hget|].
    split; [exact Hidle|exact Hlen].
  - destruct (Hdrain ltac:(lia)) as (p' & Hrun & Hlen & Hget & Hall).
    exists p'. split; [exact Hrun|]. split; [exact Hlen|].
    split; [exact Hget|]. exact (Hall 1 (mkTask 4 Pending) eq_refl).
Defined.

(** ** The further facts at work on the samples *)

Lemma foreign_exception_propagates_witness :
  values store_flaky !! 1%positive = Some (Values_of 0) ∧
  flaky 0 () = (inr (other ()), 1, ()) ∧
  (operator_deref flaky it1 store_flaky).1 = Thrown (other ()) ∧
  at_end (operator_deref flaky it1 store_flaky).2 it1 = false.
Proof.
  split; [reflexivity|]. split; [reflexivity|].
  destruct (foreign_exception_propagates flaky it1 1%positive (Values_of 0)
              store_flaky () 1 ()) as (Hd & _ & Hend & _); [reflexivity..|].
  rewrite Hd. split; [reflexivity|exact Hend].
Defined.

Lemma distance_never_ends_witness :
  values (store_upto 2) !! 1%positive = Some (Values_of (0, 2)) ∧
  upto (0, 2) () = (inl 0, (1, 2), ()) ∧
  (distance upto 7 it1 it_end (store_upto 2)).1 = OutOfFuel.
Proof.
  split; [reflexivity|]. split; [reflexivity|].
  destruct (distance_never_ends upto it1 1%positive (Values_of (0, 2))
              (store_upto 2) 0 (1, 2) () 7 3) as [Hloop _]; [reflexivity..|].
  exact (proj1 (Hloop eq_refl)).
Defined.

Lemma read_n_then_out_of_range_witness :
  produces upto (0, 2) () [0; 1] (2, 2) () ∧
  ∃ s1 s2,
    read_n upto 2 it1 (store_upto 2) = (Normal [0; 1], s1) ∧
    operator_deref upto it1 s1 = (Thrown out_of_range, s2) ∧
    operator_deref upto it1 s2 = (Thrown out_of_range, s2).
Proof.
  assert (produces upto (0, 2) () [0; 1] (2, 2) ()) as Hprod.
  { simpl. exists (1, 2), (). split; [reflexivity|].
    exists (2, 2), (). split; reflexivity. }
  split; [exact Hprod|].
  destruct (read_n_then_out_of_range upto it1 1%positive (Values_of (0, 2))
              (store_upto 2) [0; 1] (2, 2) ())
    as (s1 & s2 & Hrun & _ & Hd & _ & _ & Hagain); [reflexivity..|exact Hprod|].
  exists s1, s2. split; [exact Hrun|]. split; [exact Hd|exact Hagain].
Defined.

Lemma range_restarts_witness :
  (∀ w, ∃ f' w', produces upto (0, 2) w [0; 1] f' w') ∧
  ∃ r' s1 s2,
    range_for upto 3 range1 (range_store 2) = (Normal [0; 1], s1) ∧
    FunctionInputIteratorRange_copy range1 s1 = (Normal r', s1) ∧
    range_for upto 3 r' (exec_all upto [OpDeref it1] s1) = (Normal [0; 1], s2).
Proof.
  assert (∀ w, ∃ f' w', produces upto (0, 2) w [0; 1] f' w') as Hprod.
  { intros w. exists (2, 2), w. simpl. exists (1, 2), w. split; [reflexivity|].
    exists (2, 2), w. split; reflexivity. }
  split; [exact Hprod|].
  destruct (range_restarts upto range1 1%positive (0, 2) [0; 1]
              (range_store 2) 3 [OpDeref it1])
    as (_ & r' & s1 & s2 & H1 & Hcopy & H2 & _);
    [reflexivity|reflexivity|exact Hprod|simpl; lia|].
  exists r', s1, s2. split; [exact H1|]. split; [exact Hcopy|exact H2].
Defined.

Lemma values_are_conserved_witness :
  let os := [OpRangeOf (0, 3); OpBegin range1; OpEq it1 it_end; OpDeref it1;
             OpDeref it1; OpNe it_end it1] in
  cache_ok (@empty_state nat (nat * nat) Empty_set unit ()) ∧
  produced 1%positive (exec_all upto os (empty_state ())) =
    delivered upto 1%positive os (empty_state ())
    ++ held 1%positive (exec_all upto os (empty_state ())).
Proof.
  intros os.
  assert (cache_ok (@empty_state nat (nat * nat) Empty_set unit ())) as Hok.
  { intros p. simpl. rewrite lookup_empty. reflexivity. }
  split; [exact Hok|].
  apply (values_are_conserved upto 1%positive [] os (empty_state ()) Hok).
  reflexivity.
Defined.

Lemma deref_never_undefined_witness :
  let os := [OpRangeOf (0, 1); OpBegin range1; OpEq it1 it_end] in
  cache_ok (@empty_state nat (nat * nat) Empty_set unit ()) ∧
  (operator_deref upto it1 (exec_all upto os (empty_state ()))).1 ≠ Undefined.
Proof.
  intros os.
  assert (cache_ok (@empty_state nat (nat * nat) Empty_set unit ())) as Hok.
  { intros p. simpl. rewrite lookup_empty. reflexivity. }
  split; [exact Hok|].
  destruct (deref_never_undefined upto os (empty_state ()) it1 1%positive Hok)
    as [_ Hderef].
  apply Hderef; [reflexivity|]. vm_compute. eexists. reflexivity.
Defined.

Lemma consumer_exception_stops_copy_witness :
  consumers picky_store !! 1%positive = Some 0 ∧
  accepts picky 0 [2; 3] 5 ∧
  picky 5 0 = (Some (other ()), 5) ∧
  copy_to picky ([2; 3] ++ 0 :: [4]) out1 picky_store =
    (Thrown (other ()),
     mkOState (<[1%positive := 5]> (consumers picky_store))
              [(1%positive, 0); (1%positive, 3); (1%positive, 2)]).
Proof.
  assert (accepts picky 0 [2; 3] 5) as Hacc.
  { simpl. exists 2. split; [reflexivity|].
    exists 5. split; reflexivity. }
  split; [reflexivity|]. split; [exact Hacc|]. split; [reflexivity|].
  apply (consumer_exception_stops_copy picky out1 1%positive 0 picky_store
           [2; 3] 0 [4] 5 5 (other ())); [reflexivity|reflexivity|exact Hacc|reflexivity].
Defined.

Lemma endless_producer_is_read_lazily_witness :
  (∀ f w, ∃ a f1 w1, count_up f w = (inl a, f1, w1)) ∧
  values store_count_up !! 1%positive = Some (Values_of 0) ∧
  (for_each count_up 9 it1 it_end store_count_up).1 = OutOfFuel.
Proof.
  assert (∀ f w, ∃ a f1 w1, count_up f w = (inl a, f1, w1)) as Hendless.
  { intros f w. exists f, (S f), w. reflexivity. }
  split; [exact Hendless|]. split; [reflexivity|].
  destruct (endless_producer_is_read_lazily count_up it1 1%positive (Values_of 0)
              store_count_up 4 9 Hendless) as [_ Hloop]; [reflexivity..|].
  exact Hloop.
Defined.
